(** * LeetCode knowledge-base ingestion scripts

    A shallow embedding of the two batch scripts

    - [scripts/ingest_leetcode_data.py]  (module [Kaggle] below), and
    - [scripts/ingest_hf_leetcode.py]    (modules [Re] and [HF] below),

    followed by the properties of the record normalisation, the signature
    extraction and the merge that the specification states.

    Modelling choices.

    - A Python [str] is a Rocq [string]; each character is read as a code
      point below 256, so [str.strip], [str.lower] and the regular
      expression classes are the Python ones restricted to that range.
    - A dataset record (a CSV row, a HuggingFace item) is a finite map from
      field names to scalar cells: [None], booleans, integers, strings,
      and the float NaN, which is what [pd.read_csv] delivers for an empty
      CSV field (it never delivers the empty string). Finite floats are
      outside the model.
    - A knowledge base is a finite map from keys to JSON values; a
      knowledge-base entry is a JSON object, itself a finite map. The
      order of the keys of a dictionary is not modelled, and JSON numbers
      are integers.
    - The [try]/[except Exception: continue] around each loop body is an
      explicit result type: a raised exception leaves the loop state as it
      was. Loading, downloading, printing and writing files are left out. *)

From Stdlib Require Import ZArith NArith Ascii String DecimalString Bool Lia.
From stdpp Require Import gmap strings list fin_maps.

Set Warnings "-register-all".

(* ===================================================================== *)
(** * Python text primitives *)
(* ===================================================================== *)

Module Py.

(** [c.isspace()] for a code point below 256; this is also the class
    [\s] of [re] on a [str] pattern. *)
Definition isspace (c : ascii) : bool :=
  let n := N_of_ascii c in
  ((9 <=? n) && (n <=? 13) || (28 <=? n) && (n <=? 32)
   || (n =? 133) || (n =? 160))%N.

(** [c.lower()] for a code point below 256. *)
Definition lower_char (c : ascii) : ascii :=
  let n := N_of_ascii c in
  if ((65 <=? n) && (n <=? 90) || (192 <=? n) && (n <=? 214)
      || (216 <=? n) && (n <=? 222))%N
  then ascii_of_N (n + 32) else c.

(** [s.lower()] *)
Fixpoint lower (s : string) : string :=
  match s with
  | EmptyString => EmptyString
  | String c s' => String (lower_char c) (lower s')
  end.

(** [s.lstrip(chars)], the set of characters given as a predicate. *)
Fixpoint lstrip_by (p : ascii → bool) (s : string) : string :=
  match s with
  | EmptyString => EmptyString
  | String c s' => if p c then lstrip_by p s' else s
  end.

(** [s.rstrip(chars)] *)
Fixpoint rstrip_by (p : ascii → bool) (s : string) : string :=
  match s with
  | EmptyString => EmptyString
  | String c s' =>
      match rstrip_by p s' with
      | EmptyString => if p c then EmptyString else String c EmptyString
      | r => String c r
      end
  end.

(** [s.strip()] *)
Definition strip (s : string) : string :=
  rstrip_by isspace (lstrip_by isspace s).

(** [s.split(sep)] for a one-character separator: never empty, the
    pieces between consecutive separators, empty pieces included. *)
Fixpoint split (sep : ascii) (s : string) : list string :=
  match s with
  | EmptyString => [EmptyString]
  | String c s' =>
      if decide (c = sep) then EmptyString :: split sep s'
      else match split sep s' with
           | p :: ps => String c p :: ps
           | [] => [String c EmptyString]
           end
  end.

(** Scalar cells of a dataset record. [CNaN] is [float('nan')], the
    value of an empty field in a row read by [pd.read_csv]. *)
Inductive cell : Type :=
  | CNone
  | CBool (b : bool)
  | CInt (z : Z)
  | CStr (s : string)
  | CNaN.

(** [str(v)] *)
Definition str (v : cell) : string :=
  match v with
  | CNone => "None"
  | CBool true => "True"
  | CBool false => "False"
  | CInt z => NilZero.string_of_int (Z.to_int z)
  | CStr s => s
  | CNaN => "nan"
  end.

(** [bool(v)] *)
Definition truthy (v : cell) : bool :=
  match v with
  | CNone => false
  | CBool b => b
  | CInt z => negb (z =? 0)%Z
  | CStr s => negb (bool_decide (s = ""))
  | CNaN => true
  end.

(** [a or b] *)
Definition or_else (a b : cell) : cell := if truthy a then a else b.

(** [record.get(key, default)] *)
Definition get (record : gmap string cell) (key : string) (default : cell)
  : cell :=
  match record !! key with
  | Some v => v
  | None => default
  end.

(** Values of the knowledge base, as [json.load] returns them and
    [json.dump] writes them. *)
Inductive json : Type :=
  | JNull
  | JBool (b : bool)
  | JInt (z : Z)
  | JStr (s : string)
  | JArr (l : list json)
  | JObj (d : gmap string json).

(** Exceptions the loop bodies can raise on these values. *)
Inductive exn : Type := AttributeError | TypeError.

Inductive res (A : Type) : Type :=
  | Ok (a : A)
  | Raise (e : exn).
Arguments Ok {A} a.
Arguments Raise {A} e.

Global Instance res_ret : MRet res := @Ok.
Global Instance res_bind : MBind res := λ A B f m,
  match m with
  | Ok a => f a
  | Raise e => Raise e
  end.

(** [v.copy()]: dictionaries and lists have the method, the other JSON
    values do not. *)
Definition copy (v : json) : res json :=
  match v with
  | JObj d => Ok (JObj d)
  | JArr l => Ok (JArr l)
  | _ => Raise AttributeError
  end.

(** [v[key] = x] for a string key: only a dictionary accepts it. *)
Definition setitem (v : json) (key : string) (x : json) : res json :=
  match v with
  | JObj d => Ok (JObj (<[key := x]> d))
  | _ => Raise TypeError
  end.

End Py.

(* ===================================================================== *)
(** * The regular-expression engine used by the signature extractor *)
(* ===================================================================== *)

Module Re.

(** The fragment of [re] syntax the pattern of [extract_method_signature]
    is written in. Every repetition in that pattern is a greedy
    repetition of a one-character class. *)
Inductive regex : Type :=
  | Lit (c : ascii)               (* a literal character *)
  | Class (p : ascii → bool)      (* \s, [...], [^...] *)
  | Star (p : ascii → bool)       (* X* for a one-character X *)
  | Cat (r1 r2 : regex)           (* r1 r2 *)
  | Opt (r : regex).              (* (?:r)? *)

Definition Plus (p : ascii → bool) : regex := Cat (Class p) (Star p).

Fixpoint Lits (s : string) : regex :=
  match s with
  | EmptyString => Opt (Class (λ _, false))
  | String c EmptyString => Lit c
  | String c s' => Cat (Lit c) (Lits s')
  end.

(** Greedy repetition with backtracking: the longest run is tried first,
    then shorter ones, down to the empty run. *)
Fixpoint star {A} (p : ascii → bool) (s : string) (k : string → option A)
  : option A :=
  match s with
  | EmptyString => k EmptyString
  | String c s' =>
      if p c then
        match star p s' k with
        | Some x => Some x
        | None => k s
        end
      else k s
  end.

(** [run r s k]: match [r] at the head of [s] and hand the rest of the
    text to the continuation [k]; when [k] fails, backtrack into [r]. *)
Fixpoint run {A} (r : regex) (s : string) (k : string → option A)
  : option A :=
  match r with
  | Lit c =>
      match s with
      | String c' s' => if decide (c' = c) then k s' else None
      | EmptyString => None
      end
  | Class p =>
      match s with
      | String c' s' => if p c' then k s' else None
      | EmptyString => None
      end
  | Star p => star p s k
  | Cat r1 r2 => run r1 s (λ s', run r2 s' k)
  | Opt r1 =>
      match run r1 s k with
      | Some x => Some x
      | None => k s
      end
  end.

(** The text between two positions, each given by the suffix of the
    subject that starts there. *)
Definition span (from to : string) : string :=
  substring 0 (String.length from - String.length to) from.

(** A match object for a pattern with one capturing group, as the
    suffixes at the four positions it records. *)
Record match_obj : Type := MatchObj {
  m_start : string;
  g1_start : string;
  g1_end : string;
  m_end : string
}.

(** [match.group(0)] and [match.group(1)] *)
Definition group0 (m : match_obj) : string := span (m_start m) (m_end m).
Definition group1 (m : match_obj) : string := span (g1_start m) (g1_end m).

(** A pattern [before (group) after]. *)
Record pattern : Type := Pattern {
  before : regex;
  group : regex;
  after : regex
}.

(** Anchored match at the head of [s]. *)
Definition match_at (pat : pattern) (s : string) : option match_obj :=
  run (before pat) s (λ s1,
    run (group pat) s1 (λ s2,
      run (after pat) s2 (λ s3, Some (MatchObj s s1 s2 s3)))).

(** [re.search]: the match at the leftmost position that has one; every
    position is tried, the end of the text included. *)
Fixpoint search (pat : pattern) (s : string) : option match_obj :=
  match match_at pat s with
  | Some m => Some m
  | None =>
      match s with
      | EmptyString => None
      | String _ s' => search pat s'
      end
  end.

End Re.

(* ===================================================================== *)
(** * scripts/ingest_hf_leetcode.py *)
(* ===================================================================== *)

Module HF.
Import Py Re.

Definition in_range (lo hi : N) (c : ascii) : bool :=
  ((lo <=? N_of_ascii c) && (N_of_ascii c <=? hi))%N.
Definition is_char (x : ascii) (c : ascii) : bool := bool_decide (c = x).

(** [[a-zA-Z_]] *)
Definition ident_start (c : ascii) : bool :=
  in_range 97 122 c || in_range 65 90 c || is_char "_" c.
(** [[a-zA-Z0-9_]] *)
Definition ident_char (c : ascii) : bool :=
  ident_start c || in_range 48 57 c.
(** [[^)]] and [[^:]] *)
Definition not_rparen (c : ascii) : bool := negb (is_char ")" c).
Definition not_colon (c : ascii) : bool := negb (is_char ":" c).

(** [method_pattern], cut at its capturing group:
    - before the group   def\s+
    - the group          [a-zA-Z_][a-zA-Z0-9_]*
    - after the group    \s*\([^)]*\)(?:\s*->\s*[^:]+)?:          *)
Definition method_pattern : pattern := {|
  before := Cat (Lits "def") (Plus isspace);
  group := Cat (Class ident_start) (Star ident_char);
  after :=
    Cat (Star isspace)
      (Cat (Lit "(")
        (Cat (Star not_rparen)
          (Cat (Lit ")")
            (Cat (Opt (Cat (Star isspace)
                        (Cat (Lits "->")
                          (Cat (Star isspace) (Plus not_colon)))))
                 (Lit ":")))))
|}.

(** The dictionary [extract_method_signature] returns. *)
Record sig_info : Type := SigInfo {
  method_name : string;
  full_signature : string
}.

Definition extract_method_signature (code : string) : option sig_info :=
  if decide (code = "") then None
  else
    match search method_pattern code with
    | Some m =>
        Some {| method_name := group1 m;
                full_signature := rstrip_by (is_char ":") (group0 m) |}
    | None => None
    end.

(** The entry created for a title the existing knowledge base lacks. *)
Definition new_entry (item : gmap string cell) (title : string)
  : gmap string json :=
  <["id" := JStr (str (get item "number" (CStr "")))]>
  (<["title" := JStr title]>
  (<["difficulty" := JStr (str (get item "difficulty" (CStr "Medium")))]>
  (<["tags" := JArr []]>
  (<["description" := JStr (str (get item "post_title" (CStr "")))]>
   ∅)))).

(** What one iteration of the loop stores: [None] for [continue],
    otherwise the key, the entry, and the increment of
    [method_signature_count]. *)
Definition loop_body (existing_kb : gmap string json)
    (item : gmap string cell) : res (option (string * json * nat)) :=
  let title := strip (str (get item "problem_title" (CStr ""))) in
  if decide (title = "") then mret None
  else
    let title_key := lower title in
    entry ← match existing_kb !! title_key with
            | Some old => copy old
            | None => mret (JObj (new_entry item title))
            end;
    let code := str (get item "python_solutions" (CStr "")) in
    '(entry, found) ←
      (if decide (code = "") then mret (entry, 0)
       else
         entry ← setitem entry "solution_code" (JStr code);
         match extract_method_signature code with
         | Some sig_info =>
             entry ← setitem entry "method_name"
                       (JStr (method_name sig_info));
             entry ← setitem entry "method_signature"
                       (JStr (full_signature sig_info));
             mret (entry, 1)
         | None => mret (entry, 0)
         end);
    mret (Some (title_key, entry, found)).

(** The loop state: [solutions_kb] and [method_signature_count]. *)
Record state : Type := State {
  solutions_kb : gmap string json;
  method_signature_count : nat
}.

(** One iteration, with the [try]/[except Exception: continue]. *)
Definition step (existing_kb : gmap string json) (st : state)
    (item : gmap string cell) : state :=
  match loop_body existing_kb item with
  | Ok (Some (title_key, entry, found)) =>
      {| solutions_kb := <[title_key := entry]> (solutions_kb st);
         method_signature_count := method_signature_count st + found |}
  | Ok None => st
  | Raise _ => st
  end.

(** The processing loop of [process_hf_dataset], from the existing
    knowledge base ([∅] when the file is absent) and the records of the
    train split to the final loop state. *)
Definition process_hf_dataset (existing_kb : gmap string json)
    (train_data : list (gmap string cell)) : state :=
  fold_left (step existing_kb) train_data
    {| solutions_kb := ∅; method_signature_count := 0 |}.

End HF.

(* ===================================================================== *)
(** * scripts/ingest_leetcode_data.py *)
(* ===================================================================== *)

Module Kaggle.
Import Py.

(** [row.get(k1, '') or row.get(k2, '')] *)
Definition either (row : gmap string cell) (k1 k2 : string) : cell :=
  or_else (get row k1 (CStr "")) (get row k2 (CStr "")).

(** [[t.strip() for t in tags if t.strip()]] *)
Definition clean_tags (tags : list string) : list string :=
  strip <$> filter (λ t, strip t ≠ "") tags.

(** What one iteration of the loop stores for a row (its column names
    already in lower case): [None] for [continue], otherwise the key and
    the entry. *)
Definition loop_body (row : gmap string cell)
  : res (option (string * json)) :=
  let title := strip (str (either row "title" "question title")) in
  if decide (title = "") then mret None
  else
    let problem_id := strip (str (either row "id" "frontend question id")) in
    let tags := split "," (str (either row "tags" "topic tags")) in
    let entry : gmap string json :=
      <["id" := JStr problem_id]>
      (<["title" := JStr title]>
      (<["difficulty" := JStr (str (get row "difficulty" (CStr "Medium")))]>
      (<["tags" := JArr (JStr <$> tags)]>
      (<["description" :=
           JStr (str (either row "description" "question text"))]>
      (<["solution" :=
           JStr (str (either row "solution" "python solution"))]>
       ∅))))) in
    let entry := <["tags" := JArr (JStr <$> clean_tags tags)]> entry in
    mret (Some (lower title, JObj entry)).

(** The loop state: [kb] and [count]. *)
Record state : Type := State {
  kb : gmap string json;
  count : nat
}.

Definition step (st : state) (row : gmap string cell) : state :=
  match loop_body row with
  | Ok (Some (key, entry)) =>
      {| kb := <[key := entry]> (kb st); count := count st + 1 |}
  | Ok None => st
  | Raise _ => st
  end.

(** The processing loop of [process_data] over the rows of the CSV. *)
Definition process_data (rows : list (gmap string cell)) : state :=
  fold_left step rows {| kb := ∅; count := 0 |}.

End Kaggle.

(* ===================================================================== *)
(** * Vocabulary of the properties *)
(* ===================================================================== *)

Module Spec.
Import Py.

(** ** The two passes, side by side *)

Inductive pipeline : Type :=
  | KagglePass
  | HFPass (existing_kb : gmap string json).

(** The key and entry one record's iteration stores, if it stores. *)
Definition stored (p : pipeline) (r : gmap string cell)
  : option (string * json) :=
  match p with
  | KagglePass =>
      match Kaggle.loop_body r with
      | Ok (Some (key, entry)) => Some (key, entry)
      | _ => None
      end
  | HFPass existing_kb =>
      match HF.loop_body existing_kb r with
      | Ok (Some (key, entry, _)) => Some (key, entry)
      | _ => None
      end
  end.

(** The knowledge base a pass leaves after a sequence of records. *)
Definition final_kb (p : pipeline) (rs : list (gmap string cell))
  : gmap string json :=
  match p with
  | KagglePass => Kaggle.kb (Kaggle.process_data rs)
  | HFPass existing_kb =>
      HF.solutions_kb (HF.process_hf_dataset existing_kb rs)
  end.

(** The effect of one iteration on the knowledge base. *)
Definition store (p : pipeline) (kb : gmap string json)
    (r : gmap string cell) : gmap string json :=
  match stored p r with
  | Some (key, entry) => <[key := entry]> kb
  | None => kb
  end.

(** The knowledge base a pass merges into. *)
Definition merge_base (p : pipeline) : gmap string json :=
  match p with
  | KagglePass => ∅
  | HFPass existing_kb => existing_kb
  end.

(** The candidate title fields of a record. *)
Definition title_fields (p : pipeline) : list string :=
  match p with
  | KagglePass => ["title"; "question title"]
  | HFPass _ => ["problem_title"]
  end.

(** A field that is absent, empty, or only whitespace. *)
Definition blank (r : gmap string cell) (field : string) : Prop :=
  match r !! field with
  | Some v => strip (str v) = ""
  | None => True
  end.

(** ** The key invariant *)

Definition title_of (v : json) : option string :=
  match v with
  | JObj d =>
      match d !! "title" with
      | Some (JStr t) => Some t
      | _ => None
      end
  | _ => None
  end.

(** [entry["title"].lower() == key] *)
Definition keyed_by_title (key : string) (entry : json) : Prop :=
  lower <$> title_of entry = Some key.

Definition kb_invariant (kb : gmap string json) : Prop :=
  map_Forall keyed_by_title kb.

(** ** The merge *)

(** The fields the HuggingFace pass computes afresh from the solution
    text [code], laid over an entry. *)
Definition overlay (code : string) (entry : gmap string json)
  : gmap string json :=
  if decide (code = "") then entry
  else
    let entry := <["solution_code" := JStr code]> entry in
    match HF.extract_method_signature code with
    | Some info =>
        <["method_signature" := JStr (HF.full_signature info)]>
          (<["method_name" := JStr (HF.method_name info)]> entry)
    | None => entry
    end.

(** The increment of [method_signature_count] for a solution text. *)
Definition signatures_found (code : string) : nat :=
  if decide (code = "") then 0
  else match HF.extract_method_signature code with
       | Some _ => 1
       | None => 0
       end.

(** The title and the solution text the HuggingFace pass reads. *)
Definition hf_title (item : gmap string cell) : string :=
  strip (str (get item "problem_title" (CStr ""))).
Definition hf_code (item : gmap string cell) : string :=
  str (get item "python_solutions" (CStr "")).

(** The title the Kaggle pass reads. *)
Definition kaggle_title (row : gmap string cell) : string :=
  strip (str (Kaggle.either row "title" "question title")).

(** The key a record resolves to: the lower-case form of its title, when
    it has a usable one. *)
Definition title_key (p : pipeline) (r : gmap string cell)
  : option string :=
  let title :=
    match p with
    | KagglePass => kaggle_title r
    | HFPass _ => hf_title r
    end in
  if decide (title = "") then None else Some (lower title).

(** Under a key, the knowledge base holds a dictionary or nothing. *)
Definition dict_or_absent (v : option json) : Prop :=
  match v with
  | Some (JObj _) | None => True
  | Some _ => False
  end.

(** ** Text *)

(** Every character of [s] satisfies [p]. *)
Fixpoint all_of (p : ascii → bool) (s : string) : bool :=
  match s with
  | EmptyString => true
  | String c s' => p c && all_of p s'
  end.

(** [sep.join(pieces)] *)
Fixpoint join (sep : string) (pieces : list string) : string :=
  match pieces with
  | [] => ""
  | [x] => x
  | x :: rest => x +:+ sep +:+ join sep rest
  end.

Definition not_comma (c : ascii) : bool := negb (bool_decide (c = ","%char)).

(** ** Declarations *)

Definition is_ident (name : string) : bool :=
  match name with
  | EmptyString => false
  | String c rest => HF.ident_start c && all_of HF.ident_char rest
  end.

(** The optional [-> <return-type>] of a declaration. *)
Inductive return_annotation : string → Prop :=
  | no_annotation : return_annotation ""
  | arrow_annotation ws3 ws4 ty :
      all_of isspace ws3 = true →
      all_of isspace ws4 = true →
      ty ≠ "" →
      all_of HF.not_colon ty = true →
      return_annotation (ws3 +:+ "->" +:+ ws4 +:+ ty).

(** [declaration name sig]: the text [sig] has the shape
    [def <identifier>(<parameters>) [-> <return-type>]], the colon left
    out, and [name] is its identifier. *)
Inductive declaration (name : string) : string → Prop :=
  | declaration_intro ws1 ws2 params ret :
      ws1 ≠ "" →
      all_of isspace ws1 = true →
      is_ident name = true →
      all_of isspace ws2 = true →
      all_of HF.not_rparen params = true →
      return_annotation ret →
      declaration name
        ("def" +:+ ws1 +:+ name +:+ ws2 +:+ "(" +:+ params +:+ ")" +:+ ret).

(** The text [s] starts with the declaration [sig] and its colon. *)
Definition declared_at (s name sig : string) : Prop :=
  declaration name sig ∧ ∃ post, s = sig +:+ ":" +:+ post.

(** [sig], right after [pre], is the first declaration of [code]: no
    declaration starts at an earlier position. *)
Definition first_declaration (code pre name sig : string) : Prop :=
  ∃ rest,
    code = pre +:+ rest ∧
    declared_at rest name sig ∧
    ∀ p1 p2 name' sig',
      pre = p1 +:+ p2 → p2 ≠ "" → ¬ declared_at (p2 +:+ rest) name' sig'.

(** No declaration starts anywhere in [code]. *)
Definition no_declaration (code : string) : Prop :=
  ∀ pre rest name sig, code = pre +:+ rest → ¬ declared_at rest name sig.

(** The words a regular expression denotes. *)
Fixpoint lang (r : Re.regex) (w : string) : Prop :=
  match r with
  | Re.Lit c => w = String c ""
  | Re.Class p => ∃ c, w = String c "" ∧ p c = true
  | Re.Star p => all_of p w = true
  | Re.Cat r1 r2 => ∃ w1 w2, w = w1 +:+ w2 ∧ lang r1 w1 ∧ lang r2 w2
  | Re.Opt r1 => w = "" ∨ lang r1 w
  end.

(** The text [a] does not go on with a character of the class [p]. *)
Definition stops (p : ascii → bool) (a : string) : Prop :=
  match a with
  | EmptyString => True
  | String c _ => p c = false
  end.

(** ** Sample data *)

Definition newline : string := String "010" "".

Definition two_sum_solution : string :=
  "class Solution:" +:+ newline +:+
  "    def twoSum(self, nums: List[int], target: int) -> List[int]:" +:+
  newline +:+ "        ...".

(** A row of a CSV file with the columns [title] and [topic tags]. *)
Definition topic_tags_row : gmap string cell :=
  <["title" := CStr "Two Sum"]>
  (<["topic tags" := CStr "Array, Hash Table ,  "]> ∅).

(** A row of a CSV file with the columns [title], [tags] and
    [topic tags], its [tags] field empty. *)
Definition empty_tags_row : gmap string cell :=
  <["title" := CStr "Two Sum"]>
  (<["tags" := CNaN]>
  (<["topic tags" := CStr "Array, Hash Table"]> ∅)).

(** A row of a CSV file with the columns [title], [question title] and
    [solution], its two title fields empty. *)
Definition empty_title_row : gmap string cell :=
  <["title" := CNaN]>
  (<["question title" := CNaN]>
  (<["solution" := CStr "x = 1"]> ∅)).

(** A HuggingFace record whose title is null. *)
Definition null_title_item : gmap string cell :=
  <["problem_title" := CNone]>
  (<["python_solutions" := CStr "x = 1"]> ∅).

(** A HuggingFace record whose difficulty is the empty string. *)
Definition empty_difficulty_item : gmap string cell :=
  <["problem_title" := CStr "Two Sum"]> (<["difficulty" := CStr ""]> ∅).

Definition two_sum_old : gmap string json :=
  <["title" := JStr "Two Sum"]>
  (<["tags" := JArr [JStr "array"; JStr "hash-table"]]>
  (<["description" := JStr "..."]> ∅)).

Definition two_sum_kb : gmap string json :=
  <["two sum" := JObj two_sum_old]> ∅.

Definition two_sum_item : gmap string cell :=
  <["problem_title" := CStr "Two Sum"]>
  (<["python_solutions" := CStr "def twoSum(self, nums, target):"]> ∅).

Definition two_sum_row (solution : string) : gmap string cell :=
  <["title" := CStr "Two Sum"]> (<["solution" := CStr solution]> ∅).

(** A row of a CSV file with the columns [title] and [solution], its
    title only whitespace. *)
Definition blank_row : gmap string cell :=
  <["title" := CStr "  "]> (<["solution" := CStr "x = 1"]> ∅).

(** A second solution for "Two Sum", its title written differently. *)
Definition two_sum_item_again : gmap string cell :=
  <["problem_title" := CStr " two SUM "]>
  (<["python_solutions" := CStr "def other(self):"]> ∅).

Definition three_sum_item : gmap string cell :=
  <["problem_title" := CStr " 3Sum "]>
  (<["number" := CInt 15]>
  (<["post_title" := CStr "Two pointers"]>
  (<["python_solutions" := CStr "x = 1"]> ∅))).

End Spec.

(* ===================================================================== *)
(** * scripts/ingest_leetcode_data.py: locating the CSV file *)
(* ===================================================================== *)

Module Locate.

(** [s.endswith(suffix)] *)
Fixpoint endswith (s suffix : string) : bool :=
  if decide (s = suffix) then true
  else
    match s with
    | EmptyString => false
    | String _ s' => endswith s' suffix
    end.

(** [os.path.join(a, b)] of [posixpath], for two components. *)
Definition path_join (a b : string) : string :=
  match b with
  | String "/" _ => b
  | _ =>
      if decide (a = "") then b
      else if endswith a "/" then a +:+ b
      else a +:+ "/" +:+ b
  end.

(** One triple [(root, dirs, files)] of [os.walk]. *)
Record walk_entry : Type := WalkEntry {
  root : string;
  dirs : list string;
  files : list string
}.

(** The inner loop over the files of one directory, with its [break];
    [csv_file] is the value the variable has when the loop starts. *)
Fixpoint scan_files (root : string) (files : list string)
    (csv_file : option string) : option string :=
  match files with
  | [] => csv_file
  | file :: rest =>
      if endswith file ".csv" then Some (path_join root file)
      else scan_files root rest csv_file
  end.

(** The outer loop over the triples of [os.walk(DOWNLOAD_PATH)]. *)
Definition find_csv (walk : list walk_entry) : option string :=
  fold_left (λ csv_file e, scan_files (root e) (files e) csv_file) walk None.

(** What the search ends with. *)
Inductive located : Type :=
  | CsvFile (path : string)
  | FileNotFoundError.

(** The search and the [if not csv_file: raise FileNotFoundError(...)]
    after it: [None] and the empty string are both false. *)
Definition locate_csv (walk : list walk_entry) : located :=
  match find_csv walk with
  | None => FileNotFoundError
  | Some path => if decide (path = "") then FileNotFoundError else CsvFile path
  end.

End Locate.

(* ===================================================================== *)
(** * Vocabulary of the further properties *)
(* ===================================================================== *)

Module Facts.
Import Py Spec Locate.

(** The file name ends with ".csv". *)
Definition is_csv (file : string) : bool := endswith file ".csv".

(** The Kaggle row has a usable title. *)
Definition has_title (row : gmap string cell) : bool :=
  negb (bool_decide (kaggle_title row = "")).

(** The HuggingFace record is one [method_signature_count] counts: it has
    a usable title, the entry it starts from is a dictionary, and a
    signature is found in its solution text. *)
Definition counted (existing_kb : gmap string json)
    (item : gmap string cell) : bool :=
  negb (bool_decide (hf_title item = ""))
  && match existing_kb !! lower (hf_title item) with
     | Some (JObj _) | None => true
     | Some _ => false
     end
  && bool_decide (is_Some (HF.extract_method_signature (hf_code item))).

(** [sub] occurs in [s]. *)
Definition occurs_in (sub s : string) : Prop :=
  ∃ pre post, s = pre +:+ sub +:+ post.

(** A comma or a whitespace character. *)
Definition comma_or_space (c : ascii) : bool :=
  bool_decide (c = ","%char) || isspace c.

(** The fields the HuggingFace pass computes afresh. *)
Definition fresh_fields : list string :=
  ["solution_code"; "method_name"; "method_signature"].

(** The keys the records of a sequence store under, in order. *)
Definition stored_keys (p : pipeline) (rs : list (gmap string cell))
  : list string :=
  omap (λ r, fst <$> stored p r) rs.

(** The fields of an entry of the Kaggle pass. *)
Definition kaggle_fields : gset string :=
  {[ "id"; "title"; "difficulty"; "tags"; "description"; "solution" ]}.

(** The opening parenthesis is not in the class. *)
Definition not_lparen (c : ascii) : bool := negb (bool_decide (c = "("%char)).

(** ** Sample data *)

Definition sample_walk : list walk_entry :=
  [ {| root := "temp_kaggle_data"; dirs := ["old"; "empty"];
       files := ["readme.md"; "a.csv"; "b.csv"] |};
    {| root := "temp_kaggle_data/old"; dirs := [];
       files := ["c.csv"] |};
    {| root := "temp_kaggle_data/empty"; dirs := [];
       files := ["notes.txt"] |} ].

Definition hidden_title_row : gmap string cell :=
  <["title" := CStr "  "]> (<["question title" := CStr "Two Sum"]> ∅).

Definition list_kb : gmap string json :=
  <["two sum" := JArr []]> ∅.

Definition no_tags_row : gmap string cell :=
  <["title" := CStr "Two Sum"]> (<["tags" := CStr " , ,, "]> ∅).

End Facts.

(* ===================================================================== *)
(** * Properties of the two loops *)
(* ===================================================================== *)

Module Loops.
Import Py Spec.

Ltac unfold_res := unfold mbind, res_bind, mret, res_ret in *.

(** What the HuggingFace iteration does once the entry to start from is
    a dictionary. *)
Lemma hf_body_on_dict_found existing_kb item base :
  hf_title item ≠ "" →
  match existing_kb !! lower (hf_title item) with
  | Some old => old = JObj base
  | None => base = HF.new_entry item (hf_title item)
  end →
  HF.loop_body existing_kb item
  = Ok (Some (lower (hf_title item),
              JObj (overlay (hf_code item) base),
              signatures_found (hf_code item))).
Proof.
  intros Ht Hbase. unfold HF.loop_body, overlay, signatures_found.
  fold (hf_title item). fold (hf_code item).
  destruct (decide (hf_title item = "")) as [|_]; [done|].
  assert (match existing_kb !! lower (hf_title item) with
          | Some old => copy old
          | None => mret (JObj (HF.new_entry item (hf_title item)))
          end = Ok (JObj base)) as ->.
  { destruct (existing_kb !! lower (hf_title item)); by subst. }
  unfold_res. simpl.
  destruct (decide (hf_code item = "")); [done|].
  by destruct (HF.extract_method_signature (hf_code item)).
Qed.

Lemma hf_body_on_dict existing_kb item base :
  hf_title item ≠ "" →
  match existing_kb !! lower (hf_title item) with
  | Some old => old = JObj base
  | None => base = HF.new_entry item (hf_title item)
  end →
  ∃ found,
    HF.loop_body existing_kb item
    = Ok (Some (lower (hf_title item),
                JObj (overlay (hf_code item) base), found)).
Proof.
  intros Ht Hbase. eexists. by apply hf_body_on_dict_found.
Qed.

Lemma overlay_frame code entry f :
  f ≠ "solution_code" → f ≠ "method_name" → f ≠ "method_signature" →
  overlay code entry !! f = entry !! f.
Proof.
  intros H1 H2 H3. unfold overlay.
  destruct (decide (code = "")); [done|].
  destruct (HF.extract_method_signature code);
    by rewrite ?lookup_insert_ne.
Qed.

Lemma overlay_solution_code code entry :
  code ≠ "" → overlay code entry !! "solution_code" = Some (JStr code).
Proof.
  intros H. unfold overlay.
  destruct (decide (code = "")); [done|].
  destruct (HF.extract_method_signature code);
    rewrite ?lookup_insert_ne by done; by rewrite lookup_insert_eq.
Qed.

Lemma overlay_signature code entry info :
  code ≠ "" → HF.extract_method_signature code = Some info →
  overlay code entry !! "method_name" = Some (JStr (HF.method_name info)) ∧
  overlay code entry !! "method_signature"
  = Some (JStr (HF.full_signature info)).
Proof.
  intros H Hsig. unfold overlay. rewrite Hsig.
  destruct (decide (code = "")); [done|]. split.
  - rewrite lookup_insert_ne by done. by rewrite lookup_insert_eq.
  - by rewrite lookup_insert_eq.
Qed.

(** A record with a usable title is stored. *)
Lemma kaggle_stored_some row :
  kaggle_title row ≠ "" →
  ∃ d, stored KagglePass row = Some (lower (kaggle_title row), JObj d).
Proof.
  intros Ht. simpl. unfold Kaggle.loop_body. fold (kaggle_title row).
  destruct (decide (kaggle_title row = "")); [done|]. by eexists.
Qed.

Lemma hf_stored_some existing_kb item base :
  hf_title item ≠ "" →
  match existing_kb !! lower (hf_title item) with
  | Some old => old = JObj base
  | None => base = HF.new_entry item (hf_title item)
  end →
  stored (HFPass existing_kb) item
  = Some (lower (hf_title item), JObj (overlay (hf_code item) base)).
Proof.
  intros Ht Hbase. simpl.
  by rewrite (hf_body_on_dict_found existing_kb item base Ht Hbase).
Qed.

Lemma hf_stored_key existing_kb item key entry :
  stored (HFPass existing_kb) item = Some (key, entry) →
  hf_title item ≠ "" ∧ key = lower (hf_title item).
Proof.
  simpl. unfold HF.loop_body. fold (hf_title item). fold (hf_code item).
  destruct (decide (hf_title item = "")) as [|Ht]; [done|].
  destruct (existing_kb !! lower (hf_title item)) as [[| | | | |]|];
    unfold_res; simpl; try done;
    destruct (decide (hf_code item = "")); simpl; try done;
    try (by intros [= <- _]);
    destruct (HF.extract_method_signature (hf_code item)); simpl;
    by intros [= <- _].
Qed.

(** Both loops are a left fold of [store]. *)
Lemma kaggle_step_kb st row :
  Kaggle.kb (Kaggle.step st row) = store KagglePass (Kaggle.kb st) row.
Proof.
  unfold Kaggle.step, store, stored.
  destruct (Kaggle.loop_body row) as [[[key entry]|]|]; done.
Qed.

Lemma hf_step_kb existing_kb st item :
  HF.solutions_kb (HF.step existing_kb st item)
  = store (HFPass existing_kb) (HF.solutions_kb st) item.
Proof.
  unfold HF.step, store, stored.
  destruct (HF.loop_body existing_kb item) as [[[[key entry] found]|]|];
    done.
Qed.

Lemma kaggle_fold rows st :
  Kaggle.kb (fold_left Kaggle.step rows st)
  = fold_left (store KagglePass) rows (Kaggle.kb st).
Proof.
  revert st. induction rows as [|row rows IH]; intros st; [done|].
  simpl. by rewrite IH, kaggle_step_kb.
Qed.

Lemma hf_fold existing_kb items st :
  HF.solutions_kb (fold_left (HF.step existing_kb) items st)
  = fold_left (store (HFPass existing_kb)) items (HF.solutions_kb st).
Proof.
  revert st. induction items as [|item items IH]; intros st; [done|].
  simpl. by rewrite IH, hf_step_kb.
Qed.

Lemma final_kb_fold p rs : final_kb p rs = fold_left (store p) rs ∅.
Proof.
  destruct p as [|existing_kb]; simpl.
  - unfold Kaggle.process_data. by rewrite kaggle_fold.
  - unfold HF.process_hf_dataset. by rewrite hf_fold.
Qed.

End Loops.

(* ===================================================================== *)
(** * The signature extractor *)
(* ===================================================================== *)

Module Extractor.
Import Py Re Spec Loops.

(** ** Text lemmas *)

Lemma app_cons c a b : String c a +:+ b = String c (a +:+ b).
Proof. reflexivity. Qed.

Lemma app_nil_l a : "" +:+ a = a.
Proof. reflexivity. Qed.

Lemma app_nil_r a : a +:+ "" = a.
Proof. induction a as [|c a IH]; [done|]. by rewrite app_cons, IH. Qed.

Lemma app_assoc a b c : (a +:+ b) +:+ c = a +:+ (b +:+ c).
Proof. induction a as [|x a IH]; [done|]. by rewrite !app_cons, IH. Qed.

Lemma app_length a b :
  String.length (a +:+ b) = String.length a + String.length b.
Proof.
  induction a as [|x a IH]; [done|]. rewrite app_cons. simpl.
  by rewrite IH.
Qed.

Lemma app_inv_tail a b c : a +:+ c = b +:+ c → a = b.
Proof.
  revert b. induction a as [|x a IH]; intros [|y b] H.
  - done.
  - apply (f_equal String.length) in H.
    rewrite app_nil_l, app_cons in H. simpl in H.
    rewrite app_length in H. lia.
  - apply (f_equal String.length) in H.
    rewrite app_nil_l, app_cons in H. simpl in H.
    rewrite app_length in H. lia.
  - rewrite !app_cons in H. injection H as -> H. f_equal. by apply IH.
Qed.

Lemma app_eq_nil a b : a +:+ b = "" → a = "" ∧ b = "".
Proof. destruct a; [done|]. by rewrite app_cons. Qed.

Lemma all_of_app p a b :
  all_of p (a +:+ b) = all_of p a && all_of p b.
Proof.
  induction a as [|x a IH]; [done|]. rewrite app_cons. simpl.
  by rewrite IH, andb_assoc.
Qed.

Lemma span_app w rest : span (w +:+ rest) rest = w.
Proof.
  unfold span. rewrite app_length.
  replace (String.length w + String.length rest - String.length rest)
    with (String.length w) by lia.
  induction w as [|x w IH].
  - rewrite app_nil_l. by destruct rest.
  - rewrite app_cons. simpl. by rewrite IH.
Qed.

(** A run of a class is determined by where the class stops. *)
Lemma run_unique p w w' a b :
  all_of p w = true → all_of p w' = true → stops p a → stops p b →
  w +:+ a = w' +:+ b → w = w' ∧ a = b.
Proof.
  revert w'. induction w as [|x w IH]; intros [|y w'] Hw Hw' Ha Hb H.
  - done.
  - rewrite app_nil_l, app_cons in H. subst a. simpl in *.
    apply andb_true_iff in Hw' as [Hy _]. congruence.
  - rewrite app_nil_l, app_cons in H. subst b. simpl in *.
    apply andb_true_iff in Hw as [Hx _]. congruence.
  - rewrite !app_cons in H. injection H as -> H. simpl in *.
    apply andb_true_iff in Hw as [_ Hw].
    apply andb_true_iff in Hw' as [_ Hw'].
    destruct (IH w' Hw Hw' Ha Hb H) as [-> ->]. done.
Qed.

Lemma rstrip_by_snoc p s c :
  p c = true → rstrip_by p (s +:+ String c "") = rstrip_by p s.
Proof.
  intros Hc. induction s as [|x s IH].
  - simpl. by rewrite Hc.
  - rewrite app_cons. simpl. by rewrite IH.
Qed.

Lemma rstrip_by_all_not p s :
  all_of (λ c, negb (p c)) s = true → rstrip_by p s = s.
Proof.
  induction s as [|x s IH]; [done|]. simpl.
  intros [Hx Hs]%andb_true_iff. rewrite (IH Hs).
  apply negb_true_iff in Hx. rewrite Hx. by destruct s.
Qed.

Lemma rstrip_by_app p a b :
  b ≠ "" → rstrip_by p b = b → rstrip_by p (a +:+ b) = a +:+ b.
Proof.
  intros Hb Hr. induction a as [|x a IH]; [done|].
  rewrite app_cons. simpl. rewrite IH.
  destruct (a +:+ b) eqn:Hab; [|done].
  apply app_eq_nil in Hab as [_ ->]. done.
Qed.

(** ** The engine against the words of an expression *)

Lemma star_fallback {A} p s (k : string → option A) :
  is_Some (k s) → is_Some (star p s k).
Proof.
  intros Hk. destruct s as [|c s]; [done|]. simpl.
  destruct (p c); [|done]. by destruct (star p s k).
Qed.

Lemma star_complete {A} p w rest (k : string → option A) :
  all_of p w = true → is_Some (k rest) → is_Some (star p (w +:+ rest) k).
Proof.
  intros Hw Hk. induction w as [|c w IH].
  - by apply star_fallback.
  - simpl in Hw. apply andb_true_iff in Hw as [Hc Hw].
    rewrite app_cons. simpl. rewrite Hc.
    destruct (IH Hw) as [y ->]. done.
Qed.

Lemma star_sound {A} p s (k : string → option A) x :
  star p s k = Some x →
  ∃ w rest, s = w +:+ rest ∧ all_of p w = true ∧ k rest = Some x.
Proof.
  induction s as [|c s IH]; simpl.
  - intros Hk. by exists "", "".
  - destruct (p c) eqn:Hc.
    + destruct (star p s k) as [y|] eqn:Hs.
      * intros [= ->]. destruct (IH eq_refl) as (w & rest & -> & Hw & Hk).
        exists (String c w), rest. simpl. by rewrite Hc, Hw.
      * intros Hk. by exists "", (String c s).
    + intros Hk. by exists "", (String c s).
Qed.

Lemma run_complete {A} r w rest (k : string → option A) :
  lang r w → is_Some (k rest) → is_Some (run r (w +:+ rest) k).
Proof.
  revert A w rest k.
  induction r as [c|p|p|r1 IH1 r2 IH2|r1 IH1]; intros A w rest k Hw Hk;
    simpl in *.
  - subst w. rewrite app_cons, app_nil_l.
    by destruct (decide (c = c)).
  - destruct Hw as (c & -> & Hc). rewrite app_cons, app_nil_l.
    by rewrite Hc.
  - by apply star_complete.
  - destruct Hw as (w1 & w2 & -> & Hw1 & Hw2). rewrite app_assoc.
    apply IH1; [done|]. by apply IH2.
  - destruct Hw as [->|Hw].
    + rewrite app_nil_l. by destruct (run r1 rest k).
    + specialize (IH1 A w rest k Hw Hk).
      by destruct (run r1 (w +:+ rest) k).
Qed.

Lemma run_sound {A} r s (k : string → option A) x :
  run r s k = Some x →
  ∃ w rest, s = w +:+ rest ∧ lang r w ∧ k rest = Some x.
Proof.
  revert A s k x.
  induction r as [c|p|p|r1 IH1 r2 IH2|r1 IH1]; intros A s k x; simpl.
  - destruct s as [|c' s]; [done|].
    destruct (decide (c' = c)) as [->|]; [|done].
    intros Hk. by exists (String c ""), s.
  - destruct s as [|c' s]; [done|].
    destruct (p c') eqn:Hc; [|done].
    intros Hk. exists (String c' ""), s. eauto.
  - apply star_sound.
  - intros H. apply IH1 in H as (w1 & rest1 & -> & Hw1 & H).
    apply IH2 in H as (w2 & rest & -> & Hw2 & Hk).
    exists (w1 +:+ w2), rest. rewrite app_assoc. eauto 10.
  - destruct (run r1 s k) as [y|] eqn:Hr.
    + intros [= ->]. apply IH1 in Hr as (w & rest & -> & Hw & Hk).
      exists w, rest. eauto.
    + intros Hk. exists "", s. eauto.
Qed.

Lemma match_at_complete pat w0 w1 w2 rest :
  lang (before pat) w0 → lang (group pat) w1 → lang (after pat) w2 →
  is_Some (match_at pat (w0 +:+ w1 +:+ w2 +:+ rest)).
Proof.
  intros H0 H1 H2. unfold match_at.
  apply run_complete; [done|]. apply run_complete; [done|].
  by apply run_complete.
Qed.

Lemma match_at_sound pat s m :
  match_at pat s = Some m →
  ∃ w0 w1 w2 rest,
    s = w0 +:+ w1 +:+ w2 +:+ rest ∧
    lang (before pat) w0 ∧ lang (group pat) w1 ∧ lang (after pat) w2 ∧
    group0 m = w0 +:+ w1 +:+ w2 ∧ group1 m = w1.
Proof.
  unfold match_at. intros H.
  apply run_sound in H as (w0 & s1 & -> & H0 & H).
  apply run_sound in H as (w1 & s2 & -> & H1 & H).
  apply run_sound in H as (w2 & rest & -> & H2 & [= <-]).
  exists w0, w1, w2, rest. split; [done|]. do 3 (split; [done|]).
  unfold group0, group1. simpl. split.
  - replace (w0 +:+ w1 +:+ w2 +:+ rest)
      with ((w0 +:+ w1 +:+ w2) +:+ rest) by (by rewrite !app_assoc).
    apply span_app.
  - apply span_app.
Qed.

Lemma search_sound pat s m :
  search pat s = Some m →
  ∃ pre rest,
    s = pre +:+ rest ∧ match_at pat rest = Some m ∧
    ∀ p1 p2, pre = p1 +:+ p2 → p2 ≠ "" → match_at pat (p2 +:+ rest) = None.
Proof.
  induction s as [|c s IH]; simpl.
  - destruct (match_at pat "") eqn:Hm; [|done].
    intros [= ->]. exists "", "". split; [done|]. split; [done|].
    intros p1 p2 Hp. symmetry in Hp. by apply app_eq_nil in Hp as [_ ->].
  - destruct (match_at pat (String c s)) eqn:Hm.
    + intros [= ->]. exists "", (String c s). split; [done|].
      split; [done|].
      intros p1 p2 Hp. symmetry in Hp. by apply app_eq_nil in Hp as [_ ->].
    + intros (pre & rest & -> & Hrest & Hfirst)%IH.
      exists (String c pre), rest. split; [done|]. split; [done|].
      intros [|x p1] p2 Hp Hne.
      * rewrite app_nil_l in Hp. subst p2. by rewrite app_cons.
      * rewrite app_cons in Hp. injection Hp as -> ->. by eapply Hfirst.
Qed.

Lemma search_complete pat pre rest :
  is_Some (match_at pat rest) → is_Some (search pat (pre +:+ rest)).
Proof.
  intros Hm. induction pre as [|c pre IH].
  - rewrite app_nil_l. destruct rest; simpl; by destruct (match_at pat _).
  - rewrite app_cons. simpl.
    by destruct (match_at pat (String c (pre +:+ rest))).
Qed.

Lemma search_none pat pre rest :
  search pat (pre +:+ rest) = None → match_at pat rest = None.
Proof.
  intros Hs. destruct (match_at pat rest) eqn:Hm; [|done].
  destruct (search_complete pat pre rest) as [m' Hm']; [by rewrite Hm|].
  congruence.
Qed.

Lemma app_eq_app pre rest pre' rest' :
  pre +:+ rest = pre' +:+ rest' →
  (∃ p2, pre = pre' +:+ p2 ∧ rest' = p2 +:+ rest) ∨
  (∃ p2, pre' = pre +:+ p2 ∧ rest = p2 +:+ rest').
Proof.
  revert pre'. induction pre as [|c pre IH]; intros pre' H.
  - right. exists pre'. by rewrite app_nil_l in *.
  - destruct pre' as [|c' pre'].
    + left. exists (String c pre). by rewrite app_nil_l in *.
    + rewrite !app_cons in H. injection H as -> H.
      destruct (IH pre' H) as [(p2 & -> & ->)|(p2 & -> & ->)];
        [left|right]; by exists p2.
Qed.

(** ** Characters *)

Lemma ident_start_not_space c :
  HF.ident_start c = true → isspace c = false.
Proof. destruct c as [[] [] [] [] [] [] [] []]; by vm_compute. Qed.

Lemma space_not_ident_char c :
  isspace c = true → HF.ident_char c = false.
Proof. destruct c as [[] [] [] [] [] [] [] []]; by vm_compute. Qed.

Lemma space_not_colon c : isspace c = true → HF.not_colon c = true.
Proof. destruct c as [[] [] [] [] [] [] [] []]; by vm_compute. Qed.

Lemma spaces_not_colon w :
  all_of isspace w = true → all_of HF.not_colon w = true.
Proof.
  induction w as [|c w IH]; [done|]. simpl.
  intros [Hc Hw]%andb_true_iff. by rewrite (space_not_colon c Hc), IH.
Qed.

Lemma stops_ident name rest :
  is_ident name = true → stops isspace (name +:+ rest).
Proof.
  destruct name as [|c r]; [done|]. intros Hname. simpl in Hname.
  apply andb_true_iff in Hname as [Hc _]. rewrite app_cons. simpl.
  by apply ident_start_not_space.
Qed.

Lemma stops_spaces_then p ws c rest :
  all_of isspace ws = true → p c = false →
  (∀ x, isspace x = true → p x = false) →
  stops p (ws +:+ String c rest).
Proof.
  intros Hws Hc Hsp. destruct ws as [|x ws]; [done|].
  rewrite app_cons. simpl in *.
  apply andb_true_iff in Hws as [Hx _]. by apply Hsp.
Qed.

(** ** The pattern against the shape of a declaration *)

Lemma lang_plus p w :
  lang (Plus p) w ↔ w ≠ "" ∧ all_of p w = true.
Proof.
  simpl. split.
  - intros (w1 & w2 & -> & (c & -> & Hc) & Hw2).
    rewrite app_cons, app_nil_l. simpl. by rewrite Hc, Hw2.
  - intros [Hne Hw]. destruct w as [|c w]; [done|]. simpl in Hw.
    apply andb_true_iff in Hw as [Hc Hw].
    exists (String c ""), w. eauto.
Qed.

Lemma lang_annotation ret :
  lang (Opt (Cat (Star isspace)
              (Cat (Lits "->")
                (Cat (Star isspace) (Plus HF.not_colon))))) ret
  ↔ return_annotation ret.
Proof.
  split.
  - intros [->|(ws3 & r1 & -> & Hws3 & ar & r2 & -> & Har & ws4 & ty
                & -> & Hws4 & Hty)]; [constructor|].
    apply lang_plus in Hty as [Hne Hty].
    simpl in Har. destruct Har as (a1 & a2 & -> & -> & ->).
    by apply arrow_annotation.
  - intros [|ws3 ws4 ty Hws3 Hws4 Hne Hty]; [by left|]. right.
    exists ws3, ("->" +:+ ws4 +:+ ty). split; [done|]. split; [done|].
    exists "->", (ws4 +:+ ty). split; [done|]. split.
    { by exists "-", ">". }
    exists ws4, ty. split; [done|]. split; [done|].
    by apply lang_plus.
Qed.

Lemma lang_declaration w0 w1 w2 :
  lang (before HF.method_pattern) w0 →
  lang (group HF.method_pattern) w1 →
  lang (after HF.method_pattern) w2 →
  ∃ sig, declaration w1 sig ∧ w0 +:+ w1 +:+ w2 = sig +:+ ":".
Proof.
  unfold HF.method_pattern, before, group, after.
  intros (d & ws1 & -> & Hd & Hws1).
  apply lang_plus in Hws1 as [Hne1 Hws1].
  simpl in Hd. destruct Hd as (d1 & d2 & -> & -> & d3 & d4 & -> & -> & ->).
  intros (c1 & r1 & -> & (c & -> & Hc) & Hr1).
  intros (ws2 & t1 & -> & Hws2 & lp & t2 & -> & -> & params & t3 & ->
          & Hparams & rp & t4 & -> & -> & ret & col & -> & Hret & ->).
  apply lang_annotation in Hret.
  eexists. split.
  - apply (declaration_intro _ ws1 ws2 params ret); try done.
    rewrite app_cons, app_nil_l. simpl. by rewrite Hc, Hr1.
  - by rewrite !app_assoc.
Qed.

Lemma declaration_lang name sig :
  declaration name sig →
  ∃ w0 w2,
    lang (before HF.method_pattern) w0 ∧
    lang (group HF.method_pattern) name ∧
    lang (after HF.method_pattern) w2 ∧
    sig +:+ ":" = w0 +:+ name +:+ w2.
Proof.
  intros [ws1 ws2 params ret Hne1 Hws1 Hname Hws2 Hparams Hret].
  exists ("def" +:+ ws1), (ws2 +:+ "(" +:+ params +:+ ")" +:+ ret +:+ ":").
  unfold HF.method_pattern, before, group, after.
  split; [|split; [|split]].
  - exists "def", ws1. split; [done|]. split.
    + exists "d", "ef". split; [done|]. split; [done|]. by exists "e", "f".
    + by apply lang_plus.
  - destruct name as [|c r]; [done|]. simpl in Hname.
    apply andb_true_iff in Hname as [Hc Hr].
    exists (String c ""), r. split; [done|]. split; [|done].
    by exists c.
  - exists ws2, ("(" +:+ params +:+ ")" +:+ ret +:+ ":").
    split; [done|]. split; [done|].
    exists "(", (params +:+ ")" +:+ ret +:+ ":").
    split; [done|]. split; [done|].
    exists params, (")" +:+ ret +:+ ":"). split; [done|]. split; [done|].
    exists ")", (ret +:+ ":"). split; [done|]. split; [done|].
    exists ret, ":". split; [done|]. split; [|done].
    by apply lang_annotation.
  - by rewrite !app_assoc.
Qed.

Lemma declared_match s name sig :
  declared_at s name sig → is_Some (match_at HF.method_pattern s).
Proof.
  intros [Hd [post ->]].
  apply declaration_lang in Hd as (w0 & w2 & H0 & H1 & H2 & Heq).
  replace (sig +:+ ":" +:+ post) with (w0 +:+ name +:+ w2 +:+ post).
  - by apply match_at_complete.
  - rewrite <- (app_assoc sig), Heq. by rewrite !app_assoc.
Qed.

Lemma match_at_declared s m :
  match_at HF.method_pattern s = Some m →
  ∃ sig, declared_at s (group1 m) sig ∧ group0 m = sig +:+ ":".
Proof.
  intros (w0 & w1 & w2 & rest & -> & H0 & H1 & H2 & Hg0 & Hg1)%match_at_sound.
  destruct (lang_declaration w0 w1 w2 H0 H1 H2) as (sig & Hd & Heq).
  exists sig. rewrite Hg0, Hg1. split; [|done].
  split; [done|]. exists rest.
  rewrite <- (app_assoc sig), <- Heq. by rewrite !app_assoc.
Qed.

(** ** A position holds at most one declaration *)

Lemma annotation_unique ret ret' post post' :
  return_annotation ret → return_annotation ret' →
  ret +:+ String ":" post = ret' +:+ String ":" post' → ret = ret'.
Proof.
  assert (∀ ws3 ws4 ty rest post0,
            all_of isspace ws3 = true →
            String ":" post0 ≠ (ws3 +:+ "->" +:+ ws4 +:+ ty) +:+ rest)
    as Hmix.
  { intros [|x ws3] ws4 ty rest post0 Hws3; rewrite !app_assoc.
    - by rewrite app_nil_l, !app_cons.
    - rewrite app_cons. intros [= <- _]. by vm_compute in Hws3. }
  intros [|ws3 ws4 ty Hws3 Hws4 Hne Hty] [|ws3' ws4' ty' Hws3' Hws4' Hne' Hty'].
  - done.
  - rewrite app_nil_l. intros H. by apply Hmix in H.
  - rewrite app_nil_l. intros H. symmetry in H. by apply Hmix in H.
  - rewrite !app_assoc, !app_cons, !app_nil_l. intros H.
    apply (run_unique isspace) in H as [-> H]; [|done..].
    injection H as H.
    rewrite <- !(app_assoc _ _ (String ":" _)) in H.
    apply (run_unique HF.not_colon) in H as [-> _]; [|
      rewrite all_of_app; apply andb_true_iff; split;
        [by apply spaces_not_colon|done]..|done|done].
    done.
Qed.

Lemma declared_at_unique s name sig name' sig' :
  declared_at s name sig → declared_at s name' sig' →
  name = name' ∧ sig = sig'.
Proof.
  intros [Hd [post ->]] [Hd' [post' H]].
  destruct Hd as [ws1 ws2 params ret Hne1 Hws1 Hname Hws2 Hparams Hret].
  destruct Hd' as [ws1' ws2' params' ret' Hne1' Hws1' Hname' Hws2' Hparams'
                     Hret'].
  rewrite !app_assoc, !app_cons, !app_nil_l in H. injection H as H.
  apply (run_unique isspace) in H as [-> H];
    [|done|done|by apply stops_ident..].
  destruct name as [|c r]; [done|]. destruct name' as [|c' r']; [done|].
  simpl in Hname, Hname'.
  apply andb_true_iff in Hname as [Hc Hr].
  apply andb_true_iff in Hname' as [Hc' Hr'].
  rewrite !app_cons in H. injection H as -> H.
  apply (run_unique HF.ident_char) in H as [-> H];
    [|done|done|
     apply stops_spaces_then; [done|done|apply space_not_ident_char]..].
  apply (run_unique isspace) in H as [-> H]; [|done..]. injection H as H.
  apply (run_unique HF.not_rparen) in H as [-> H]; [|done..].
  injection H as H.
  apply annotation_unique in H as ->; done.
Qed.

Lemma declaration_rstrip name sig :
  declaration name sig → rstrip_by (HF.is_char ":") (sig +:+ ":") = sig.
Proof.
  intros [ws1 ws2 params ret Hne1 Hws1 Hname Hws2 Hparams Hret].
  rewrite rstrip_by_snoc by done.
  destruct Hret as [|ws3 ws4 ty Hws3 Hws4 Hne Hty].
  - rewrite app_nil_r, <- !app_assoc. by apply rstrip_by_app.
  - rewrite <- !app_assoc. by apply rstrip_by_app, rstrip_by_all_not.
Qed.

(** ** The extractor *)

Lemma extract_sound code info :
  HF.extract_method_signature code = Some info →
  ∃ pre,
    first_declaration code pre (HF.method_name info)
      (HF.full_signature info).
Proof.
  unfold HF.extract_method_signature.
  destruct (decide (code = "")); [done|].
  destruct (search HF.method_pattern code) as [m|] eqn:Hs; [|done].
  intros [= <-]. simpl.
  apply search_sound in Hs as (pre & rest & -> & Hm & Hfirst).
  apply match_at_declared in Hm as (sig & Hd & ->).
  rewrite (declaration_rstrip _ _ (proj1 Hd)).
  exists pre, rest. split; [done|]. split; [done|].
  intros p1 p2 name' sig' Hp Hne Hd'.
  apply declared_match in Hd' as [m' Hm'].
  by rewrite (Hfirst p1 p2 Hp Hne) in Hm'.
Qed.

Lemma extract_complete code pre name sig :
  first_declaration code pre name sig →
  HF.extract_method_signature code
  = Some {| HF.method_name := name; HF.full_signature := sig |}.
Proof.
  intros (rest & -> & Hd & Hfirst).
  destruct (search_complete HF.method_pattern pre rest) as [m Hs].
  { by eapply declared_match. }
  unfold HF.extract_method_signature.
  destruct (decide (pre +:+ rest = "")) as [Hnil|_].
  { apply app_eq_nil in Hnil as [_ ->].
    destruct Hd as [_ [post Hpost]]. symmetry in Hpost.
    apply app_eq_nil in Hpost as [_ Hpost]. by rewrite app_cons in Hpost. }
  rewrite Hs.
  apply search_sound in Hs as (pre' & rest' & Heq & Hm & Hfirst').
  assert (rest' = rest) as ->.
  { apply app_eq_app in Heq as [(p2 & -> & ->)|(p2 & -> & ->)].
    - destruct p2 as [|x p2]; [done|]. exfalso.
      apply match_at_declared in Hm as (sig' & Hd' & _).
      by eapply (Hfirst pre' (String x p2)).
    - destruct p2 as [|x p2]; [done|]. exfalso.
      apply declared_match in Hd as [m' Hm'].
      by rewrite (Hfirst' pre (String x p2)) in Hm'. }
  apply match_at_declared in Hm as (sig' & Hd' & Hg0).
  destruct (declared_at_unique _ _ _ _ _ Hd Hd') as [-> ->].
  rewrite Hg0, (declaration_rstrip _ _ (proj1 Hd')). done.
Qed.

Lemma extract_none code :
  HF.extract_method_signature code = None ↔ no_declaration code.
Proof.
  split.
  - intros Hnone pre rest name sig -> Hd.
    assert (∃ pre' name' sig', first_declaration (pre +:+ rest) pre' name' sig')
      as (pre' & name' & sig' & Hfirst).
    { apply declared_match in Hd as Hm.
      destruct (search_complete HF.method_pattern pre rest Hm) as [m Hs].
      apply search_sound in Hs as (pre' & rest' & Heq & Hm' & Hfirst).
      apply match_at_declared in Hm' as (sig' & Hd' & _).
      exists pre', (group1 m), sig', rest'. split; [done|]. split; [done|].
      intros p1 p2 n0 s0 Hp Hne Hd0.
      apply declared_match in Hd0 as [m0 Hm0].
      by rewrite (Hfirst p1 p2 Hp Hne) in Hm0. }
    apply extract_complete in Hfirst. congruence.
  - intros Hno.
    destruct (HF.extract_method_signature code) as [info|] eqn:He; [|done].
    apply extract_sound in He as (pre & rest & -> & Hd & _).
    by destruct (Hno pre rest _ _ eq_refl Hd).
Qed.

(** ** What follows the first declaration *)

Lemma first_occurrence p z :
  all_of p z = true ∨
  ∃ u c v, z = u +:+ String c v ∧ all_of p u = true ∧ p c = false.
Proof.
  induction z as [|x z IH]; [by left|]. simpl.
  destruct (p x) eqn:Hx.
  - destruct IH as [->|(u & c & v & -> & Hu & Hc)]; [by left|].
    right. exists (String x u), c, v. simpl. by rewrite Hx, Hu.
  - right. by exists "", x, z.
Qed.

Lemma app_snoc_inv a b c x :
  a +:+ String c "" = b +:+ x → x ≠ "" →
  ∃ x0, x = x0 +:+ String c "" ∧ a = b +:+ x0.
Proof.
  intros H Hx. apply app_eq_app in H as [(p & -> & ->)|(p & -> & H)].
  - by exists p.
  - destruct p as [|y p].
    + rewrite app_nil_l in H. subst x. exists "".
      by rewrite !app_nil_r, app_nil_l.
    + rewrite app_cons in H. injection H as _ H. symmetry in H.
      by apply app_eq_nil in H as [_ ->].
Qed.

Lemma not_rparen_inv c : HF.not_rparen c = false → c = ")"%char.
Proof.
  unfold HF.not_rparen, HF.is_char. intros H%negb_false_iff.
  by apply bool_decide_eq_true in H.
Qed.

Lemma space_not_rparen c : isspace c = true → HF.not_rparen c = true.
Proof. destruct c as [[] [] [] [] [] [] [] []]; by vm_compute. Qed.

Lemma ident_char_not_rparen c :
  HF.ident_char c = true → HF.not_rparen c = true.
Proof. destruct c as [[] [] [] [] [] [] [] []]; by vm_compute. Qed.

Lemma all_of_impl (p q : ascii → bool) w :
  (∀ c, p c = true → q c = true) → all_of p w = true → all_of q w = true.
Proof.
  intros Hpq. induction w as [|c w IH]; [done|]. simpl.
  intros [Hc Hw]%andb_true_iff. by rewrite (Hpq c Hc), IH.
Qed.

Lemma ident_no_rparen name :
  is_ident name = true → all_of HF.not_rparen name = true.
Proof.
  destruct name as [|c r]; [done|]. simpl.
  intros [Hc Hr]%andb_true_iff. apply andb_true_iff. split.
  - apply ident_char_not_rparen. unfold HF.ident_char. by rewrite Hc.
  - apply (all_of_impl HF.ident_char); [apply ident_char_not_rparen|done].
Qed.

Lemma annotation_no_colon ret :
  return_annotation ret → all_of HF.not_colon ret = true.
Proof.
  intros [|ws3 ws4 ty Hws3 Hws4 Hne Hty]; [done|].
  rewrite !all_of_app, Hty, !(spaces_not_colon _ Hws3),
    !(spaces_not_colon _ Hws4). done.
Qed.

(** A declaration that starts before the colon of another one ends at or
    before that colon. *)
Lemma declared_prefix name sig name' sig' p2 post' q' :
  declaration name sig → declaration name' sig' →
  sig' +:+ ":" +:+ q' = p2 +:+ sig +:+ ":" +:+ post' →
  ∃ x, p2 +:+ sig +:+ ":" = sig' +:+ ":" +:+ x.
Proof.
  intros Hd Hd' Heq.
  rewrite <- (app_assoc sig'), <- (app_assoc sig), <- (app_assoc p2) in Heq.
  apply app_eq_app in Heq as [(x & Hx & _)|(x & Hx & _)].
  2: { exists x. by rewrite Hx, !app_assoc. }
  destruct x as [|y x].
  { exists "". by rewrite <- (app_assoc sig'), Hx, !app_nil_r. }
  exfalso.
  rewrite <- (app_assoc p2) in Hx.
  apply app_snoc_inv in Hx as (x0 & _ & Hsig'); [|done].
  destruct Hd' as [ws1' ws2' params' ret' Hne1' Hws1' Hname' Hws2' Hparams'
                     Hret'].
  destruct Hd as [ws1 ws2 params ret Hne1 Hws1 Hname Hws2 Hparams Hret].
  set (sig := "def" +:+ ws1 +:+ name +:+ ws2 +:+ "(" +:+ params +:+ ")" +:+ ret)
    in *.
  assert (all_of HF.not_rparen
            ("def" +:+ ws1' +:+ name' +:+ ws2' +:+ "(" +:+ params') = true)
    as Hhead.
  { rewrite !all_of_app, Hparams', (ident_no_rparen _ Hname').
    rewrite (all_of_impl isspace HF.not_rparen ws1' space_not_rparen Hws1').
    by rewrite (all_of_impl isspace HF.not_rparen ws2' space_not_rparen Hws2'). }
  destruct (first_occurrence HF.not_rparen (p2 +:+ sig))
    as [Hall|(u & c & v & Hsplit & Hu & Hc)].
  - rewrite all_of_app in Hall. apply andb_true_iff in Hall as [_ Hall].
    subst sig. rewrite !all_of_app in Hall.
    do 6 (apply andb_true_iff in Hall as [_ Hall]).
    by apply andb_true_iff in Hall as [Hall _].
  - apply not_rparen_inv in Hc as ->. rewrite Hsplit in Hsig'.
    assert (("def" +:+ ws1' +:+ name' +:+ ws2' +:+ "(" +:+ params')
              +:+ String ")" ret'
            = u +:+ String ")" (v +:+ ":" +:+ x0)) as Heq.
    { rewrite !app_assoc. rewrite !app_assoc in Hsig'. exact Hsig'. }
    apply (run_unique HF.not_rparen) in Heq as [_ [= ->]]; [|done..].
    apply annotation_no_colon in Hret'. rewrite !all_of_app in Hret'.
    apply andb_true_iff in Hret' as [_ Hret'].
    by apply andb_true_iff in Hret' as [Hret' _].
Qed.

Lemma first_declaration_post code pre name sig post' :
  first_declaration code pre name sig →
  first_declaration (pre +:+ sig +:+ ":" +:+ post') pre name sig.
Proof.
  intros (rest & -> & [Hd [post ->]] & Hfirst).
  exists (sig +:+ ":" +:+ post'). split; [done|]. split.
  { split; [done|]. by exists post'. }
  intros p1 p2 name' sig' -> Hne [Hd' [q' Heq]].
  destruct (declared_prefix _ _ _ _ _ _ _ Hd Hd' (eq_sym Heq)) as [x Hx].
  apply (Hfirst p1 p2 name' sig' eq_refl Hne). split; [done|].
  exists (x +:+ post).
  replace (p2 +:+ sig +:+ ":" +:+ post)
    with ((p2 +:+ sig +:+ ":") +:+ post) by (by rewrite !app_assoc).
  rewrite Hx. by rewrite !app_assoc.
Qed.

(** C3. The extractor returns a result exactly when the text holds a
    declaration of the shape [def <identifier>(<parameters>)
    [-> <return-type>]:], and the result is read off the first one only,
    the one no other declaration starts before: its identifier is the
    method name, and its text up to the colon, the colon left out, is the
    signature. Whatever text follows the colon of that declaration, later
    declarations included, the result is the same. *)
Theorem extractor_returns_first_declaration code info :
  (HF.extract_method_signature code = Some info ↔
   ∃ pre,
     first_declaration code pre (HF.method_name info)
       (HF.full_signature info)) ∧
  (∀ pre post',
     first_declaration code pre (HF.method_name info)
       (HF.full_signature info) →
     HF.extract_method_signature
       (pre +:+ HF.full_signature info +:+ ":" +:+ post') = Some info).
Proof.
  destruct info as [name sig]. simpl. split; [split|].
  - apply extract_sound.
  - intros [pre Hfirst]. by apply extract_complete in Hfirst.
  - intros pre post' Hfirst.
    apply (extract_complete _ pre). by apply (first_declaration_post code).
Qed.

(** The extraction example of the specification. *)
Lemma extractor_on_two_sum_solution :
  HF.extract_method_signature two_sum_solution
  = Some {| HF.method_name := "twoSum";
            HF.full_signature :=
              "def twoSum(self, nums: List[int], target: int) -> List[int]"
         |} ∧
  ∃ pre,
    first_declaration two_sum_solution pre "twoSum"
      "def twoSum(self, nums: List[int], target: int) -> List[int]".
Proof.
  set (info :=
         {| HF.method_name := "twoSum";
            HF.full_signature :=
              "def twoSum(self, nums: List[int], target: int) -> List[int]"
         |}).
  assert (HF.extract_method_signature two_sum_solution = Some info) as Hex
    by (vm_compute; reflexivity).
  split; [exact Hex|].
  exact (proj1 (proj1 (extractor_returns_first_declaration _ info)) Hex).
Defined.

Lemma overlay_no_signature code entry f :
  HF.extract_method_signature code = None → f ≠ "solution_code" →
  overlay code entry !! f = entry !! f.
Proof.
  intros Hnone Hf. unfold overlay. rewrite Hnone.
  destruct (decide (code = "")); [done|]. by rewrite lookup_insert_ne.
Qed.

(** C8. On a text that holds no declaration, the empty text included,
    the extractor returns its no-match result and nothing is raised: a
    record with such a solution text and a usable title is stored all the
    same, with its solution text, and its entry has the [method_name] and
    [method_signature] of the entry it starts from, that is none at all
    for a new entry. *)
Theorem no_declaration_is_not_fatal code :
  no_declaration code →
  HF.extract_method_signature code = None ∧
  ∀ existing_kb item base,
    hf_code item = code →
    hf_title item ≠ "" →
    match existing_kb !! lower (hf_title item) with
    | Some old => old = JObj base
    | None => base = HF.new_entry item (hf_title item)
    end →
    ∃ entry,
      HF.loop_body existing_kb item
      = Ok (Some (lower (hf_title item), JObj entry, 0)) ∧
      (∀ st, HF.solutions_kb (HF.step existing_kb st item)
             !! lower (hf_title item) = Some (JObj entry)) ∧
      (code ≠ "" → entry !! "solution_code" = Some (JStr code)) ∧
      entry !! "method_name" = base !! "method_name" ∧
      entry !! "method_signature" = base !! "method_signature".
Proof.
  intros Hnone%extract_none. split; [done|].
  intros existing_kb item base <- Ht Hbase.
  pose proof (hf_body_on_dict_found existing_kb item base Ht Hbase) as Hbody.
  unfold signatures_found in Hbody. rewrite Hnone in Hbody.
  assert ((if decide (hf_code item = "") then 0 else 0) = 0) as Hzero
    by (by destruct (decide _)).
  rewrite Hzero in Hbody.
  exists (overlay (hf_code item) base).
  split; [done|]. split; [|split; [|split]].
  - intros st. unfold HF.step. rewrite Hbody. simpl.
    by rewrite lookup_insert_eq.
  - apply overlay_solution_code.
  - by apply overlay_no_signature.
  - by apply overlay_no_signature.
Qed.

Lemma no_declaration_in_three_sum :
  HF.extract_method_signature "" = None ∧
  HF.extract_method_signature "x = 1" = None ∧
  ∃ entry,
    HF.loop_body two_sum_kb three_sum_item
    = Ok (Some ("3sum", JObj entry, 0)) ∧
    entry !! "solution_code" = Some (JStr "x = 1") ∧
    entry !! "method_name" = None ∧
    entry !! "method_signature" = None.
Proof.
  assert (no_declaration "") as Hempty
    by (apply extract_none; reflexivity).
  assert (no_declaration "x = 1") as Hno
    by (apply extract_none; vm_compute; reflexivity).
  split; [exact (proj1 (no_declaration_is_not_fatal "" Hempty))|].
  destruct (no_declaration_is_not_fatal "x = 1" Hno) as [Hex Hstore].
  split; [exact Hex|].
  destruct (Hstore two_sum_kb three_sum_item
              (HF.new_entry three_sum_item (hf_title three_sum_item)))
    as (entry & Hbody & _ & Hcode & Hname & Hsig);
    [reflexivity|vm_compute; discriminate|reflexivity|].
  exists entry. split; [exact Hbody|].
  split; [apply Hcode; discriminate|]. split; [exact Hname|exact Hsig].
Defined.

(** ** The engine on sample texts *)

Example later_declaration_ignored :
  HF.extract_method_signature "undef f(x): def g(y):"
  = Some {| HF.method_name := "f"; HF.full_signature := "def f(x)" |}.
Proof. vm_compute. reflexivity. Qed.

Example annotation_needs_a_type :
  HF.extract_method_signature "def f()->:" = None ∧
  HF.extract_method_signature "def f() -> :"
  = Some {| HF.method_name := "f"; HF.full_signature := "def f() -> " |}.
Proof. split; vm_compute; reflexivity. Qed.

Example no_space_before_colon :
  HF.extract_method_signature "def f(x) :" = None.
Proof. vm_compute. reflexivity. Qed.

End Extractor.

(* ===================================================================== *)
(** * The merge of the HuggingFace pass *)
(* ===================================================================== *)

Module Merge.
Import Py Spec Loops.

(** C1. When the title key of a record is in the existing knowledge base,
    the stored entry is the existing entry with only the freshly computed
    fields laid over it: [solution_code] when there is a solution text,
    and [method_name] and [method_signature] when a signature is found in
    it. Every other field, [tags] and [description] among them, is the
    existing one. *)
Theorem merge_overlays_existing_entry existing_kb item old :
  hf_title item ≠ "" →
  existing_kb !! lower (hf_title item) = Some (JObj old) →
  ∃ merged found,
    HF.loop_body existing_kb item
    = Ok (Some (lower (hf_title item), JObj merged, found)) ∧
    (∀ st, HF.solutions_kb (HF.step existing_kb st item)
           !! lower (hf_title item) = Some (JObj merged)) ∧
    merged = overlay (hf_code item) old ∧
    (∀ f, f ≠ "solution_code" → f ≠ "method_name" →
          f ≠ "method_signature" → merged !! f = old !! f) ∧
    (hf_code item ≠ "" →
     merged !! "solution_code" = Some (JStr (hf_code item))) ∧
    (∀ info, hf_code item ≠ "" →
       HF.extract_method_signature (hf_code item) = Some info →
       merged !! "method_name" = Some (JStr (HF.method_name info)) ∧
       merged !! "method_signature"
       = Some (JStr (HF.full_signature info))).
Proof.
  intros Ht Hold.
  destruct (hf_body_on_dict existing_kb item old Ht) as [found Hbody].
  { by rewrite Hold. }
  exists (overlay (hf_code item) old), found.
  split; [exact Hbody|]. split; [|split; [done|split; [|split]]].
  - intros st. unfold HF.step. rewrite Hbody. simpl.
    by rewrite lookup_insert_eq.
  - intros f. apply overlay_frame.
  - apply overlay_solution_code.
  - intros info. apply overlay_signature.
Qed.

(** The merge example of the specification: the entry for "Two Sum"
    keeps its tags and description and gains the solution code, the
    method name and the method signature. *)
Lemma merge_two_sum :
  ∃ merged,
    final_kb (HFPass two_sum_kb) [two_sum_item] !! "two sum"
    = Some (JObj merged) ∧
    merged !! "tags" = Some (JArr [JStr "array"; JStr "hash-table"]) ∧
    merged !! "description" = Some (JStr "...") ∧
    merged !! "solution_code"
    = Some (JStr "def twoSum(self, nums, target):") ∧
    merged !! "method_name" = Some (JStr "twoSum") ∧
    merged !! "method_signature"
    = Some (JStr "def twoSum(self, nums, target)").
Proof.
  assert (hf_title two_sum_item ≠ "") as Ht by (vm_compute; discriminate).
  assert (two_sum_kb !! lower (hf_title two_sum_item)
          = Some (JObj two_sum_old)) as Hold by (vm_compute; reflexivity).
  destruct (merge_overlays_existing_entry two_sum_kb two_sum_item
              two_sum_old Ht Hold)
    as (merged & found & _ & Hkb & _ & Hframe & Hcode & Hsig).
  exists merged. split; [exact (Hkb _)|].
  rewrite !Hframe by discriminate.
  split; [reflexivity|]. split; [reflexivity|].
  split; [apply Hcode; vm_compute; discriminate|].
  apply (Hsig (HF.SigInfo "twoSum" "def twoSum(self, nums, target)")).
  - vm_compute; discriminate.
  - vm_compute; reflexivity.
Defined.

(** C10. For a record whose title key is not in the existing knowledge
    base, the HuggingFace pass creates an entry whose tags are the empty
    list and whose description is the string conversion of the record's
    [post_title] field (of the empty string when the field is absent). *)
Theorem fresh_entry_tags_and_description existing_kb item :
  hf_title item ≠ "" →
  existing_kb !! lower (hf_title item) = None →
  ∃ entry found,
    HF.loop_body existing_kb item
    = Ok (Some (lower (hf_title item), JObj entry, found)) ∧
    entry !! "tags" = Some (JArr []) ∧
    entry !! "description"
    = Some (JStr (str (get item "post_title" (CStr "")))).
Proof.
  intros Ht Hnone.
  destruct (hf_body_on_dict existing_kb item
              (HF.new_entry item (hf_title item)) Ht) as [found Hbody].
  { by rewrite Hnone. }
  eexists _, found. split; [exact Hbody|].
  rewrite !overlay_frame by discriminate. unfold HF.new_entry.
  split.
  - rewrite !lookup_insert_ne by discriminate. by rewrite lookup_insert_eq.
  - rewrite !lookup_insert_ne by discriminate. by rewrite lookup_insert_eq.
Qed.

Lemma fresh_three_sum :
  ∃ entry found,
    HF.loop_body two_sum_kb three_sum_item
    = Ok (Some ("3sum", JObj entry, found)) ∧
    entry !! "tags" = Some (JArr []) ∧
    entry !! "description" = Some (JStr "Two pointers").
Proof.
  apply (fresh_entry_tags_and_description two_sum_kb three_sum_item).
  - vm_compute; discriminate.
  - vm_compute; reflexivity.
Defined.

End Merge.

(* ===================================================================== *)
(** * Properties shared by the two passes *)
(* ===================================================================== *)

Module Passes.
Import Py Spec Loops.

Lemma kaggle_body_inv row key entry :
  Kaggle.loop_body row = Ok (Some (key, entry)) →
  kaggle_title row ≠ "" ∧ key = lower (kaggle_title row) ∧
  ∃ d, entry = JObj d ∧ d !! "title" = Some (JStr (kaggle_title row)).
Proof.
  unfold Kaggle.loop_body. fold (kaggle_title row).
  destruct (decide (kaggle_title row = "")) as [|Hne]; [done|].
  unfold_res. intros [= <- <-]. split; [done|]. split; [done|].
  eexists; split; [done|].
  rewrite !lookup_insert_ne by discriminate. by rewrite lookup_insert_eq.
Qed.

Lemma hf_body_blank existing_kb item :
  hf_title item = "" → HF.loop_body existing_kb item = Ok None.
Proof.
  intros Ht. unfold HF.loop_body. fold (hf_title item).
  destruct (decide (hf_title item = "")); done.
Qed.

Lemma stored_keyed p r key entry :
  kb_invariant (merge_base p) →
  stored p r = Some (key, entry) → keyed_by_title key entry.
Proof.
  destruct p as [|existing_kb]; simpl; intros Hinv Hst.
  - destruct (Kaggle.loop_body r) as [[[k e]|]|] eqn:Hbody; [|done..].
    injection Hst as -> ->.
    apply kaggle_body_inv in Hbody as (_ & -> & d & -> & Hd).
    unfold keyed_by_title, title_of. by rewrite Hd.
  - destruct (decide (hf_title r = "")) as [Hblank|Ht].
    { by rewrite (hf_body_blank _ _ Hblank) in Hst. }
    destruct (existing_kb !! lower (hf_title r)) as [old|] eqn:Hold.
    + pose proof (Hinv _ _ Hold) as Hkeyed.
      unfold keyed_by_title, title_of in Hkeyed.
      destruct old as [| | | | |d]; try done.
      destruct (d !! "title") as [[| | |t| |]|] eqn:Hd; try done.
      destruct (hf_body_on_dict existing_kb r d Ht) as [found Hbody].
      { by rewrite Hold. }
      rewrite Hbody in Hst. injection Hst as <- <-.
      unfold keyed_by_title, title_of.
      rewrite overlay_frame by discriminate. by rewrite Hd.
    + destruct (hf_body_on_dict existing_kb r
                  (HF.new_entry r (hf_title r)) Ht) as [found Hbody].
      { by rewrite Hold. }
      rewrite Hbody in Hst. injection Hst as <- <-.
      unfold keyed_by_title, title_of.
      rewrite overlay_frame by discriminate. unfold HF.new_entry.
      rewrite lookup_insert_ne by discriminate.
      by rewrite lookup_insert_eq.
Qed.

Lemma store_invariant p kb r :
  kb_invariant (merge_base p) →
  kb_invariant kb → kb_invariant (store p kb r).
Proof.
  intros Hbase Hkb. unfold store.
  destruct (stored p r) as [[key entry]|] eqn:Hst; [|done].
  apply map_Forall_insert_2; [|done]. by eapply stored_keyed.
Qed.

(** C2. In a knowledge base produced by either pass, from any sequence of
    records and, for the HuggingFace pass, from an existing knowledge
    base with the same invariant, every entry under a key [k] has a title
    whose lower-case form is [k]; every entry an iteration stores (the
    merged entry included) is keyed that way, and each store preserves
    the invariant. *)
Theorem key_is_lowercase_title p :
  kb_invariant (merge_base p) →
  (∀ r key entry,
     stored p r = Some (key, entry) → keyed_by_title key entry) ∧
  (∀ kb r, kb_invariant kb → kb_invariant (store p kb r)) ∧
  (∀ rs, kb_invariant (final_kb p rs)).
Proof.
  intros Hbase. split; [|split].
  - intros r key entry. by apply stored_keyed.
  - intros kb r. by apply store_invariant.
  - intros rs. rewrite final_kb_fold.
    assert (kb_invariant (∅ : gmap string json)) as Hinit
      by apply map_Forall_empty.
    revert Hinit. generalize (∅ : gmap string json).
    induction rs as [|r rs IH]; intros kb Hkb; [done|].
    simpl. apply IH. by apply store_invariant.
Qed.

Lemma key_is_lowercase_title_two_sum :
  kb_invariant two_sum_kb ∧
  kb_invariant (final_kb (HFPass two_sum_kb)
                  [two_sum_item; three_sum_item]).
Proof.
  assert (kb_invariant two_sum_kb) as Hbase.
  { apply map_Forall_insert_2; [reflexivity|apply map_Forall_empty]. }
  split; [exact Hbase|].
  apply (key_is_lowercase_title (HFPass two_sum_kb) Hbase).
Defined.

Lemma blank_title_not_stored p r :
  (∀ f, f ∈ title_fields p → blank r f) → stored p r = None.
Proof.
  intros Hblank. destruct p as [|existing_kb]; simpl.
  - assert (kaggle_title r = "") as Ht.
    { pose proof (Hblank "title" ltac:(set_solver)) as H1.
      pose proof (Hblank "question title" ltac:(set_solver)) as H2.
      unfold blank in H1, H2.
      unfold kaggle_title, Kaggle.either, or_else, get.
      destruct (r !! "title") as [v1|];
        destruct (r !! "question title") as [v2|];
        try destruct (truthy v1); simpl; done. }
    unfold Kaggle.loop_body. fold (kaggle_title r).
    destruct (decide (kaggle_title r = "")); done.
  - assert (hf_title r = "") as Ht.
    { pose proof (Hblank "problem_title" ltac:(set_solver)) as H1.
      unfold blank in H1. unfold hf_title, get.
      destruct (r !! "problem_title"); done. }
    by rewrite (hf_body_blank _ _ Ht).
Qed.

(** What the guard on the title does skip: a record whose candidate title
    fields are all absent or strings of whitespace only stores nothing, and
    the pass over a sequence that contains it ends with the knowledge base
    of the pass over the sequence without it. *)
Lemma blank_title_record_is_skipped p r :
  (∀ f, f ∈ title_fields p → blank r f) →
  stored p r = None ∧
  (∀ kb, store p kb r = kb) ∧
  (∀ rs1 rs2, final_kb p (rs1 ++ r :: rs2) = final_kb p (rs1 ++ rs2)).
Proof.
  intros Hblank. pose proof (blank_title_not_stored p r Hblank) as Hst.
  assert (∀ kb, store p kb r = kb) as Hstore.
  { intros kb. unfold store. by rewrite Hst. }
  split; [done|]. split; [done|].
  intros rs1 rs2. rewrite !final_kb_fold, !fold_left_app. simpl.
  by rewrite Hstore.
Qed.

(** C6. The guard on the title misses the missing values. An empty title
    field of the CSV file arrives as NaN, which is truthy and whose string
    conversion is "nan": the row is not skipped, it is stored under the
    key "nan", with the title "nan", and counted. In the same way the null
    title of a HuggingFace record is stored as the title "None". *)
Theorem empty_title_cell_is_stored :
  (∃ d, stored KagglePass empty_title_row = Some ("nan", JObj d) ∧
        d !! "title" = Some (JStr "nan")) ∧
  is_Some (final_kb KagglePass [empty_title_row] !! "nan") ∧
  Kaggle.count (Kaggle.process_data [empty_title_row]) = 1 ∧
  (∃ d, stored (HFPass ∅) null_title_item = Some ("none", JObj d) ∧
        d !! "title" = Some (JStr "None")).
Proof.
  split; [|split; [|split]].
  - destruct (kaggle_stored_some empty_title_row) as [d Hst];
      [vm_compute; discriminate|].
    exists d. split; [exact Hst|].
    simpl in Hst.
    destruct (Kaggle.loop_body empty_title_row) as [[[k e]|]|] eqn:Hbody;
      [|done..].
    injection Hst as -> ->.
    by apply kaggle_body_inv in Hbody as (_ & _ & d' & [= <-] & Hd).
  - destruct (kaggle_stored_some empty_title_row) as [d Hst];
      [vm_compute; discriminate|].
    rewrite final_kb_fold. simpl fold_left. unfold store. rewrite Hst.
    rewrite lookup_insert_eq. by eexists.
  - reflexivity.
  - eexists. split.
    + apply (hf_stored_some ∅ null_title_item);
        [vm_compute; discriminate|reflexivity].
    + rewrite overlay_frame by discriminate. reflexivity.
Qed.

Lemma fold_store_untouched p rs kb key :
  (∀ r entry, r ∈ rs → stored p r ≠ Some (key, entry)) →
  fold_left (store p) rs kb !! key = kb !! key.
Proof.
  revert kb. induction rs as [|r rs IH]; intros kb Hrs; [done|].
  simpl. rewrite IH.
  - unfold store. destruct (stored p r) as [[k e]|] eqn:Hst; [|done].
    apply lookup_insert_ne. intros ->.
    by apply (Hrs r e); [left|].
  - intros r' e' Hin. apply Hrs. by right.
Qed.

Lemma title_key_stored p r key :
  title_key p r = Some key →
  dict_or_absent (merge_base p !! key) →
  ∃ entry, stored p r = Some (key, entry).
Proof.
  unfold title_key. destruct p as [|existing_kb].
  - destruct (decide (kaggle_title r = "")) as [|Ht]; [done|].
    intros [= <-] _. destruct (kaggle_stored_some r Ht) as [d Hst]. eauto.
  - destruct (decide (hf_title r = "")) as [|Ht]; [done|].
    intros [= <-]. simpl.
    destruct (existing_kb !! lower (hf_title r)) as [old|] eqn:Hold.
    + destruct old as [| | | | |base]; try done. intros _.
      pose proof (hf_stored_some existing_kb r base Ht) as Hst.
      rewrite Hold in Hst. simpl in Hst. rewrite Hst by done. eauto.
    + intros _.
      pose proof (hf_stored_some existing_kb r
                    (HF.new_entry r (hf_title r)) Ht) as Hst.
      rewrite Hold in Hst. simpl in Hst. rewrite Hst by done. eauto.
Qed.

Lemma stored_title_key p r key entry :
  stored p r = Some (key, entry) → title_key p r = Some key.
Proof.
  unfold title_key. destruct p as [|existing_kb].
  - simpl. destruct (Kaggle.loop_body r) as [[[k e]|]|] eqn:Hbody; [|done..].
    intros [= -> ->]. apply kaggle_body_inv in Hbody as (Ht & -> & _).
    by destruct (decide (kaggle_title r = "")).
  - intros [Ht ->]%hf_stored_key.
    by destruct (decide (hf_title r = "")).
Qed.

(** C9. Within one pass, when several records resolve to the same title
    key, the last of them wins: its iteration stores an entry, and the
    final knowledge base maps the key to that entry, whatever the earlier
    records stored under the key. For the HuggingFace pass the existing
    knowledge base is to hold a dictionary, or nothing, under the key. *)
Theorem last_record_wins p rs1 r rs2 key :
  title_key p r = Some key →
  (∀ r', r' ∈ rs2 → title_key p r' ≠ Some key) →
  dict_or_absent (merge_base p !! key) →
  ∃ entry,
    stored p r = Some (key, entry) ∧
    final_kb p (rs1 ++ r :: rs2) !! key = Some entry.
Proof.
  intros Hkey Hlater Hbase.
  destruct (title_key_stored p r key Hkey Hbase) as [entry Hst].
  exists entry. split; [done|].
  rewrite final_kb_fold, fold_left_app. simpl.
  rewrite fold_store_untouched.
  - unfold store at 1. rewrite Hst. by rewrite lookup_insert_eq.
  - intros r' entry' Hin Hst'. apply (Hlater r' Hin).
    by apply stored_title_key in Hst'.
Qed.

(** Two solutions for "Two Sum" in one HuggingFace pass, and two rows for
    it in one Kaggle pass: the knowledge base holds the second one. *)
Lemma last_record_wins_two_sum :
  (∃ d,
     final_kb (HFPass two_sum_kb)
       [two_sum_item; two_sum_item_again; three_sum_item] !! "two sum"
     = Some (JObj d) ∧
     d !! "solution_code" = Some (JStr "def other(self):") ∧
     d !! "method_name" = Some (JStr "other")) ∧
  (∃ d,
     final_kb KagglePass [two_sum_row "a"; two_sum_row "b"; blank_row]
       !! "two sum" = Some (JObj d) ∧
     d !! "solution" = Some (JStr "b")).
Proof.
  split.
  - destruct (last_record_wins (HFPass two_sum_kb) [two_sum_item]
                two_sum_item_again [three_sum_item] "two sum")
      as (entry & Hst & Hfin).
    + reflexivity.
    + intros r' Hin. apply list_elem_of_singleton in Hin as ->.
      vm_compute. discriminate.
    + vm_compute. exact I.
    + rewrite (hf_stored_some two_sum_kb two_sum_item_again two_sum_old)
        in Hst; [|vm_compute; discriminate|reflexivity].
      injection Hst as <-. eexists. split; [exact Hfin|].
      split; vm_compute; reflexivity.
  - destruct (last_record_wins KagglePass [two_sum_row "a"]
                (two_sum_row "b") [blank_row] "two sum")
      as (entry & Hst & Hfin).
    + reflexivity.
    + intros r' Hin. apply list_elem_of_singleton in Hin as ->.
      vm_compute. discriminate.
    + exact I.
    + revert Hst. simpl. unfold Kaggle.loop_body, mret, res_ret. simpl.
      intros [= <-]. eexists. split; [exact Hfin|]. reflexivity.
Defined.

End Passes.

(* ===================================================================== *)
(** * The normalizer *)
(* ===================================================================== *)

Module Normalizer.
Import Py Spec Loops Passes.

(** ** Text lemmas *)

Lemma split_join sep s : join (String sep "") (split sep s) = s.
Proof.
  induction s as [|c s IH]; [done|]. simpl.
  destruct (decide (c = sep)) as [->|Hne].
  - destruct (split sep s) as [|p ps] eqn:Hsp; simpl in *; by subst.
  - destruct (split sep s) as [|p ps] eqn:Hsp; simpl in *; [by subst|].
    destruct ps; simpl in *; by subst.
Qed.

Lemma split_pieces sep s :
  Forall (λ p, all_of (λ c, negb (bool_decide (c = sep))) p = true)
    (split sep s).
Proof.
  induction s as [|c s IH]; simpl; [by repeat constructor|].
  destruct (decide (c = sep)) as [->|Hne]; [by constructor|].
  destruct (split sep s) as [|p ps]; simpl.
  - repeat constructor. simpl. by rewrite bool_decide_eq_false_2.
  - inversion_clear IH as [|?? Hp Hps]. constructor; [|done].
    simpl. by rewrite bool_decide_eq_false_2.
Qed.

Lemma all_of_lstrip q p s :
  all_of q s = true → all_of q (lstrip_by p s) = true.
Proof.
  induction s as [|c s IH]; [done|]. simpl.
  intros [Hc Hs]%andb_true_iff. destruct (p c); [by apply IH|].
  simpl. by rewrite Hc, Hs.
Qed.

Lemma all_of_rstrip q p s :
  all_of q s = true → all_of q (rstrip_by p s) = true.
Proof.
  induction s as [|c s IH]; [done|]. simpl.
  intros [Hc Hs]%andb_true_iff. specialize (IH Hs).
  destruct (rstrip_by p s) as [|c' r].
  - destruct (p c); simpl; [done|]. by rewrite Hc.
  - simpl in *. by rewrite Hc, IH.
Qed.

Lemma rstrip_by_idem p s : rstrip_by p (rstrip_by p s) = rstrip_by p s.
Proof.
  induction s as [|c s IH]; [done|]. simpl.
  destruct (rstrip_by p s) as [|c' r] eqn:Hr.
  - destruct (p c) eqn:Hc; simpl; [done|]. by rewrite Hc.
  - remember (String c' r) as u. simpl. rewrite IH. by subst u.
Qed.

Lemma rstrip_by_head p c s :
  p c = false → ∃ r, rstrip_by p (String c s) = String c r.
Proof.
  intros Hc. simpl. destruct (rstrip_by p s); [|by eexists].
  rewrite Hc. by eexists.
Qed.

Lemma lstrip_by_head p s :
  lstrip_by p s = "" ∨ ∃ c r, lstrip_by p s = String c r ∧ p c = false.
Proof.
  induction s as [|c s IH]; [by left|]. simpl.
  destruct (p c) eqn:Hc; [done|]. right. by exists c, s.
Qed.

Lemma strip_idem s : strip (strip s) = strip s.
Proof.
  unfold strip.
  destruct (lstrip_by_head isspace s) as [->|(c & r & -> & Hc)]; [done|].
  destruct (rstrip_by_head isspace c r Hc) as [r' Hr].
  rewrite Hr. simpl lstrip_by. rewrite Hc. rewrite <- Hr.
  apply rstrip_by_idem.
Qed.

(** ** The entry of the Kaggle pass *)

Lemma kaggle_stored_inv row key d :
  stored KagglePass row = Some (key, JObj d) →
  key = lower (kaggle_title row) ∧
  d !! "difficulty"
  = Some (JStr (str (get row "difficulty" (CStr "Medium")))) ∧
  d !! "tags"
  = Some (JArr (JStr <$> Kaggle.clean_tags
                  (split "," (str (Kaggle.either row "tags" "topic tags"))))) ∧
  d !! "solution"
  = Some (JStr (str (Kaggle.either row "solution" "python solution"))) ∧
  d !! "solution_code" = None.
Proof.
  simpl. unfold Kaggle.loop_body. fold (kaggle_title row).
  destruct (decide (kaggle_title row = "")) as [|Hne]; [done|].
  unfold_res. intros [= <- <-]. split; [done|].
  split; [|split; [|split]].
  - rewrite !lookup_insert_ne by discriminate. by rewrite lookup_insert_eq.
  - by rewrite lookup_insert_eq.
  - rewrite !lookup_insert_ne by discriminate. by rewrite lookup_insert_eq.
  - by rewrite !lookup_insert_ne by discriminate.
Qed.

(** How the tags are computed. In the entry the Kaggle pass stores, the
    tags come from the first truthy of the fields [tags] and [topic tags]
    (a non-empty string is truthy, and so is NaN): the field is split
    on commas (the pieces hold no comma and, joined by commas, give the
    field back), each piece is trimmed, and the pieces that are empty
    after trimming are dropped. So every tag is non-empty, trimmed and
    free of commas; the list may be empty. *)
Lemma tags_are_split_trimmed_nonempty row key d :
  stored KagglePass row = Some (key, JObj d) →
  ∃ field pieces tags,
    ((∀ v, row !! "tags" = Some v → truthy v = true → field = str v) ∧
     (∀ s, row !! "tags" = Some (CStr s) → s ≠ "" → field = s) ∧
     (row !! "tags" = None ∨ row !! "tags" = Some (CStr "") →
      field = str (get row "topic tags" (CStr "")))) ∧
    (pieces = split "," field ∧
     join "," pieces = field ∧
     Forall (λ p, all_of not_comma p = true) pieces) ∧
    tags = strip <$> filter (λ p, strip p ≠ "") pieces ∧
    Forall (λ t, t ≠ "" ∧ strip t = t ∧ all_of not_comma t = true) tags ∧
    d !! "tags" = Some (JArr (JStr <$> tags)).
Proof.
  intros (_ & _ & Htags & _)%kaggle_stored_inv.
  set (field := str (Kaggle.either row "tags" "topic tags")) in *.
  exists field, (split "," field), (Kaggle.clean_tags (split "," field)).
  split; [|split; [|split; [reflexivity|split; [|exact Htags]]]].
  - subst field. unfold Kaggle.either, or_else, get. split; [|split].
    + intros v Hv Htrue. by rewrite Hv, Htrue.
    + intros s Hs Hne. rewrite Hs. simpl.
      by rewrite bool_decide_eq_false_2.
    + intros [Hn|Hn]; by rewrite Hn.
  - split; [reflexivity|]. split; [apply split_join|apply split_pieces].
  - apply Forall_fmap, Forall_forall. intros t Ht.
    apply list_elem_of_filter in Ht as [Hne Ht]. simpl.
    split; [done|]. split; [apply strip_idem|].
    pose proof (split_pieces "," field) as Hall.
    rewrite Forall_forall in Hall. specialize (Hall t Ht).
    unfold strip. by apply all_of_rstrip, all_of_lstrip.
Qed.

(** The tag example of the specification, read from [topic tags] in a
    file that has no column [tags]. *)
Example tags_of_topic_tags_row :
  ∃ d, stored KagglePass topic_tags_row = Some ("two sum", JObj d) ∧
       d !! "tags" = Some (JArr [JStr "Array"; JStr "Hash Table"]).
Proof.
  destruct (kaggle_stored_some topic_tags_row) as [d Hst];
    [vm_compute; discriminate|].
  pose proof (kaggle_stored_inv _ _ _ Hst) as (_ & _ & Htags & _).
  exists d. split; [exact Hst|]. by rewrite Htags.
Qed.

(** C7. The fallback to [topic tags] misses the empty field. An empty
    [tags] field of the CSV file arrives as NaN, which is truthy: the [or]
    keeps it, [topic tags] is never read, and the tags of the entry are
    the one string "nan" instead of the tags the row has. *)
Theorem empty_tags_cell_hides_topic_tags :
  ∃ d, stored KagglePass empty_tags_row = Some ("two sum", JObj d) ∧
       d !! "tags" = Some (JArr [JStr "nan"]) ∧
       d !! "tags" ≠ Some (JArr [JStr "Array"; JStr "Hash Table"]).
Proof.
  destruct (kaggle_stored_some empty_tags_row) as [d Hst];
    [vm_compute; discriminate|].
  pose proof (kaggle_stored_inv _ _ _ Hst) as (_ & _ & Htags & _).
  exists d. split; [exact Hst|]. rewrite Htags. split; [reflexivity|].
  vm_compute. discriminate.
Qed.

(** ** The entry of the HuggingFace pass *)

Lemma hf_stored_inv existing_kb item key d :
  stored (HFPass existing_kb) item = Some (key, JObj d) →
  hf_title item ≠ "" ∧ key = lower (hf_title item) ∧
  ∃ base,
    d = overlay (hf_code item) base ∧
    match existing_kb !! key with
    | Some old => old = JObj base
    | None => base = HF.new_entry item (hf_title item)
    end.
Proof.
  simpl. intros Hst.
  destruct (decide (hf_title item = "")) as [Hblank|Ht].
  { by rewrite (hf_body_blank _ _ Hblank) in Hst. }
  split; [done|].
  destruct (existing_kb !! lower (hf_title item)) as [old|] eqn:Hold.
  - destruct old as [| | | |l|base].
    1-5: exfalso; revert Hst; unfold HF.loop_body;
      fold (hf_title item); fold (hf_code item);
      destruct (decide (hf_title item = "")); [done|];
      rewrite Hold; unfold_res; simpl; try done;
      by destruct (decide (hf_code item = "")).
    destruct (hf_body_on_dict existing_kb item base Ht) as [found Hbody].
    { by rewrite Hold. }
    rewrite Hbody in Hst. injection Hst as <- <-.
    split; [done|]. exists base. by rewrite Hold.
  - destruct (hf_body_on_dict existing_kb item
                (HF.new_entry item (hf_title item)) Ht) as [found Hbody].
    { by rewrite Hold. }
    rewrite Hbody in Hst. injection Hst as <- <-.
    split; [done|]. eexists. by rewrite Hold.
Qed.

(** ** Difficulty *)

(** C4 fails as stated: a HuggingFace record whose difficulty field is
    present and empty gets an entry with the empty difficulty, not with
    "Medium". *)
Lemma empty_difficulty_is_kept :
  blank empty_difficulty_item "difficulty" ∧
  ∃ d, stored (HFPass ∅) empty_difficulty_item = Some ("two sum", JObj d) ∧
       d !! "difficulty" = Some (JStr "") ∧
       d !! "difficulty" ≠ Some (JStr "Medium").
Proof.
  split; [reflexivity|]. eexists. split.
  - apply (hf_stored_some ∅ empty_difficulty_item);
      [vm_compute; discriminate|reflexivity].
  - rewrite overlay_frame by discriminate. split; [reflexivity|].
    vm_compute. discriminate.
Qed.

(** C4, amended. For a record that has no [difficulty] field, the entry
    either pass creates (for the HuggingFace pass: for a title key the
    existing knowledge base lacks) has difficulty "Medium"; when the
    field is present the difficulty is the string conversion of its
    value, whatever it is. *)
Theorem difficulty_defaults_when_absent p r key d :
  stored p r = Some (key, JObj d) →
  merge_base p !! key = None →
  d !! "difficulty"
  = Some (JStr (str (get r "difficulty" (CStr "Medium")))) ∧
  (r !! "difficulty" = None → d !! "difficulty" = Some (JStr "Medium")) ∧
  (∀ v, r !! "difficulty" = Some v →
        d !! "difficulty" = Some (JStr (str v))).
Proof.
  intros Hst Hbase.
  assert (d !! "difficulty"
          = Some (JStr (str (get r "difficulty" (CStr "Medium"))))) as Hd.
  { destruct p as [|existing_kb].
    - by apply kaggle_stored_inv in Hst as (_ & Hd & _).
    - apply hf_stored_inv in Hst as (_ & _ & base & -> & Hb).
      simpl in Hbase. rewrite Hbase in Hb. subst base.
      rewrite overlay_frame by discriminate. unfold HF.new_entry.
      rewrite !lookup_insert_ne by discriminate.
      by rewrite lookup_insert_eq. }
  split; [done|]. rewrite Hd. unfold get.
  split; [by intros ->|]. by intros v ->.
Qed.

Lemma difficulty_of_three_sum :
  ∃ d, stored (HFPass two_sum_kb) three_sum_item = Some ("3sum", JObj d) ∧
       d !! "difficulty" = Some (JStr "Medium").
Proof.
  eexists. split.
  - apply (hf_stored_some two_sum_kb three_sum_item);
      [vm_compute; discriminate|reflexivity].
  - eapply (difficulty_defaults_when_absent (HFPass two_sum_kb)
              three_sum_item "3sum"); [|reflexivity..].
    apply (hf_stored_some two_sum_kb three_sum_item);
      [vm_compute; discriminate|reflexivity].
Defined.

(** ** Solution text *)




End Normalizer.


(* ===================================================================== *)
(** * Further properties of the scripts *)
(* ===================================================================== *)

Set Warnings "-clear-no-such-hyp".

Module LocateFacts.
Import Py Spec Locate Facts.

Lemma endswith_spec s suffix :
  endswith s suffix = true ↔ ∃ pre, s = pre +:+ suffix.
Proof.
  split.
  - induction s as [|c s IH]; simpl.
    + destruct (decide ("" = suffix)) as [<-|]; [|done]. by exists "".
    + destruct (decide (String c s = suffix)) as [<-|_]; [by exists ""|].
      intros [pre ->]%IH. by exists (String c pre).
  - intros [pre ->]. induction pre as [|c pre IH].
    + rewrite Extractor.app_nil_l. destruct suffix as [|c s]; [done|]. simpl.
      by destruct (decide (String c s = String c s)).
    + rewrite Extractor.app_cons. simpl. rewrite IH. by destruct (decide _).
Qed.

Lemma path_join_suffix a b : ∃ pre, path_join a b = pre +:+ b.
Proof.
  unfold path_join.
  assert (∃ pre,
            (if decide (a = "") then b
             else if endswith a "/" then a +:+ b else a +:+ "/" +:+ b)
            = pre +:+ b) as Hgen.
  { destruct (decide (a = "")); [by exists ""|].
    destruct (endswith a "/"); [by exists a|].
    exists (a +:+ "/"). by rewrite Extractor.app_assoc. }
  destruct b as [|c b]; [done|].
  destruct (decide (c = "/"%char)) as [->|Hc]; [by exists ""|].
  destruct c as [[] [] [] [] [] [] [] []]; done.
Qed.

Lemma path_join_csv a file :
  is_csv file = true →
  is_csv (path_join a file) = true ∧ path_join a file ≠ "".
Proof.
  unfold is_csv. intros [pre ->]%endswith_spec.
  destruct (path_join_suffix a (pre +:+ ".csv")) as [pre' ->]. split.
  - apply endswith_spec. exists (pre' +:+ pre). by rewrite Extractor.app_assoc.
  - intros [_ [_ H]%Extractor.app_eq_nil]%Extractor.app_eq_nil. done.
Qed.

Lemma scan_files_spec root files csv_file :
  scan_files root files csv_file
  = match find is_csv files with
    | Some file => Some (path_join root file)
    | None => csv_file
    end.
Proof.
  induction files as [|f fs IH]; [done|]. simpl. unfold is_csv at 1.
  by destruct (endswith f ".csv").
Qed.

Lemma find_csv_snoc walk e :
  find_csv (walk ++ [e])
  = scan_files (root e) (files e) (find_csv walk).
Proof. unfold find_csv. by rewrite fold_left_app. Qed.

Lemma find_none_iff (fs : list string) :
  find is_csv fs = None ↔ ∀ f, f ∈ fs → is_csv f = false.
Proof.
  induction fs as [|f fs IH]; simpl.
  - split; [|done]. intros _ f Hf. by apply elem_of_nil in Hf.
  - destruct (is_csv f) eqn:Hf.
    + split; [done|]. intros H. specialize (H f ltac:(left)). congruence.
    + rewrite IH. split.
      * intros H f' [->|Hin]%elem_of_cons; auto.
      * intros H f' Hin. apply H. by right.
Qed.

(** X1. The search for the CSV file ends in [FileNotFoundError] exactly
    when no directory of the walk lists a file whose name ends with
    ".csv". *)
Theorem no_csv_is_file_not_found walk :
  locate_csv walk = FileNotFoundError ↔
  ∀ e f, e ∈ walk → f ∈ files e → is_csv f = false.
Proof.
  assert (∀ w, (∀ p, find_csv w = Some p → is_csv p = true ∧ p ≠ "") ∧
               (find_csv w = None ↔
                ∀ e f, e ∈ w → f ∈ files e → is_csv f = false)) as Hgen.
  { induction w as [|e w IH] using rev_ind.
    - split; [done|]. split; [|done].
      intros _ e f He. by apply elem_of_nil in He.
    - destruct IH as [IHp IHn]. rewrite find_csv_snoc, scan_files_spec.
      destruct (find is_csv (files e)) as [f|] eqn:Hfind.
      + apply find_some in Hfind as [Hin Hf]. split.
        * intros p [= <-]. by apply path_join_csv.
        * split; [done|]. intros H.
          rewrite (H e f) in Hf; [done| |by apply list_elem_of_In].
          apply elem_of_app. right. left.
      + split; [done|]. rewrite IHn. rewrite find_none_iff in Hfind. split.
        * intros H e' f [He'|He']%elem_of_app; [eauto|].
          apply list_elem_of_singleton in He' as ->. eauto.
        * intros H e' f He'. apply H. apply elem_of_app. by left. }
  destruct (Hgen walk) as [Hp Hn]. unfold locate_csv. rewrite <- Hn.
  destruct (find_csv walk) as [p|] eqn:Hfind; [|done].
  destruct (Hp p eq_refl) as [_ Hne]. by rewrite decide_False.
Qed.

(** X2. The [break] leaves only the loop over the files of one directory:
    the walk goes on, and a later directory with a CSV file overwrites the
    choice. The file found is the first CSV file of the last directory that
    has one. *)
Theorem last_directory_with_csv_wins before e after fs1 file fs2 :
  files e = fs1 ++ file :: fs2 →
  (∀ f, f ∈ fs1 → is_csv f = false) →
  is_csv file = true →
  (∀ e' f, e' ∈ after → f ∈ files e' → is_csv f = false) →
  locate_csv (before ++ e :: after) = CsvFile (path_join (root e) file).
Proof.
  intros Hfiles Hfs1 Hfile Hafter.
  assert (find is_csv (files e) = Some file) as Hfind.
  { rewrite Hfiles. clear Hfiles. induction fs1 as [|f fs1 IH]; simpl.
    - by rewrite Hfile.
    - rewrite (Hfs1 f) by left. apply IH. intros f' Hf'. apply Hfs1.
      by right. }
  assert (find_csv (before ++ e :: after) = Some (path_join (root e) file))
    as Hres.
  { induction after as [|e' after IH] using rev_ind.
    - by rewrite find_csv_snoc, scan_files_spec, Hfind.
    - replace (before ++ e :: after ++ [e'])
        with ((before ++ e :: after) ++ [e']) by (by rewrite <- app_assoc).
      rewrite find_csv_snoc, scan_files_spec.
      assert (find is_csv (files e') = None) as ->.
      { apply find_none_iff. intros f Hf. apply (Hafter e'); [|done].
        apply elem_of_app. right. left. }
      apply IH. intros e'' f He''. apply Hafter. apply elem_of_app. by left. }
  unfold locate_csv. rewrite Hres.
  destruct (path_join_csv (root e) file Hfile) as [_ Hne].
  by rewrite decide_False.
Qed.

Lemma last_directory_with_csv_wins_sample :
  locate_csv sample_walk = CsvFile "temp_kaggle_data/old/c.csv".
Proof.
  apply (last_directory_with_csv_wins
           [ {| root := "temp_kaggle_data"; dirs := ["old"; "empty"];
                files := ["readme.md"; "a.csv"; "b.csv"] |} ]
           {| root := "temp_kaggle_data/old"; dirs := [];
              files := ["c.csv"] |}
           [ {| root := "temp_kaggle_data/empty"; dirs := [];
                files := ["notes.txt"] |} ]
           [] "c.csv" []).
  - reflexivity.
  - intros f Hf. by apply elem_of_nil in Hf.
  - reflexivity.
  - intros e' f He' Hf. apply list_elem_of_singleton in He' as ->.
    simpl in Hf. by apply list_elem_of_singleton in Hf as ->.
Defined.

(** X3. A path the search returns ends with ".csv", and it is the join of
    a walked directory with a file that directory lists and whose name
    ends with ".csv". *)
Theorem located_file_is_a_listed_csv walk path :
  locate_csv walk = CsvFile path →
  is_csv path = true ∧
  ∃ e file,
    e ∈ walk ∧ file ∈ files e ∧ is_csv file = true ∧
    path = path_join (root e) file.
Proof.
  unfold locate_csv.
  destruct (find_csv walk) as [p|] eqn:Hfind; [|done].
  destruct (decide (p = "")); [done|]. intros [= <-].
  revert p n Hfind. induction walk as [|e w IH] using rev_ind; [done|].
  intros p Hne. rewrite find_csv_snoc, scan_files_spec.
  destruct (find is_csv (files e)) as [f|] eqn:Hf.
  - apply find_some in Hf as [Hin Hf]. intros [= <-].
    split; [by apply path_join_csv|].
    exists e, f. split; [apply elem_of_app; right; left|].
    by rewrite list_elem_of_In.
  - intros Hw. destruct (IH p Hne Hw) as (Hp & e' & f & He' & Hrest).
    split; [done|]. exists e', f. split; [|done]. apply elem_of_app. by left.
Qed.

Lemma located_file_is_a_listed_csv_sample :
  is_csv "temp_kaggle_data/old/c.csv" = true ∧
  ∃ e file,
    e ∈ sample_walk ∧ file ∈ files e ∧ is_csv file = true ∧
    "temp_kaggle_data/old/c.csv" = path_join (root e) file.
Proof.
  apply (located_file_is_a_listed_csv sample_walk). reflexivity.
Defined.

End LocateFacts.

Module KeyFacts.
Import Py Spec Loops Facts.

(** ** Lower case and trimming *)

Lemma lower_char_idem c : lower_char (lower_char c) = lower_char c.
Proof. destruct c as [[] [] [] [] [] [] [] []]; by vm_compute. Qed.

Lemma isspace_lower_char c : isspace (lower_char c) = isspace c.
Proof. destruct c as [[] [] [] [] [] [] [] []]; by vm_compute. Qed.

Lemma lower_idem s : lower (lower s) = lower s.
Proof.
  induction s as [|c s IH]; [done|]. simpl. by rewrite lower_char_idem, IH.
Qed.

Lemma lower_lstrip s :
  lstrip_by isspace (lower s) = lower (lstrip_by isspace s).
Proof.
  induction s as [|c s IH]; [done|]. simpl. rewrite isspace_lower_char.
  by destruct (isspace c).
Qed.

Lemma lower_rstrip s :
  rstrip_by isspace (lower s) = lower (rstrip_by isspace s).
Proof.
  induction s as [|c s IH]; [done|]. simpl. rewrite IH, isspace_lower_char.
  destruct (rstrip_by isspace s); [|done]. simpl. by destruct (isspace c).
Qed.

Lemma lower_strip s : strip (lower s) = lower (strip s).
Proof. unfold strip. by rewrite lower_lstrip, lower_rstrip. Qed.

Lemma lower_nonempty s : s ≠ "" → lower s ≠ "".
Proof. by destruct s. Qed.

(** ** Keys *)

Lemma stored_key_shape p r key entry :
  stored p r = Some (key, entry) →
  ∃ title, title ≠ "" ∧ strip title = title ∧ key = lower title.
Proof.
  destruct p as [|existing_kb]; intros Hst.
  - simpl in Hst.
    destruct (Kaggle.loop_body r) as [[[k e]|]|] eqn:Hbody; [|done..].
    injection Hst as -> ->.
    apply Passes.kaggle_body_inv in Hbody as (Ht & -> & _).
    exists (kaggle_title r). split; [done|]. split; [|done].
    apply Normalizer.strip_idem.
  - apply hf_stored_key in Hst as [Ht ->].
    exists (hf_title r). split; [done|]. split; [|done].
    apply Normalizer.strip_idem.
Qed.

Lemma final_kb_snoc p rs r :
  final_kb p (rs ++ [r]) = store p (final_kb p rs) r.
Proof. by rewrite !final_kb_fold, fold_left_app. Qed.

Lemma final_kb_nil p : final_kb p [] = ∅.
Proof. by rewrite final_kb_fold. Qed.

Lemma final_lookup_stored p rs key entry :
  final_kb p rs !! key = Some entry →
  ∃ r, r ∈ rs ∧ stored p r = Some (key, entry).
Proof.
  induction rs as [|r rs IH] using rev_ind.
  - by rewrite final_kb_nil, lookup_empty.
  - rewrite final_kb_snoc. unfold store.
    destruct (stored p r) as [[k e]|] eqn:Hst.
    + destruct (decide (k = key)) as [->|Hne].
      * rewrite lookup_insert_eq. intros [= ->]. exists r. split; [|done].
        apply elem_of_app. right. left.
      * rewrite lookup_insert_ne by done. intros (r' & Hin & Hr')%IH.
        exists r'. split; [|done]. apply elem_of_app. by left.
    + intros (r' & Hin & Hr')%IH.
      exists r'. split; [|done]. apply elem_of_app. by left.
Qed.

(** X4. Every key of a knowledge base either pass produces is non-empty,
    is its own lower-case form, and has no whitespace at either end. *)
Theorem keys_are_lowercase_trimmed_titles p rs key :
  is_Some (final_kb p rs !! key) →
  key ≠ "" ∧ lower key = key ∧ strip key = key.
Proof.
  intros [entry (r & _ & Hst)%final_lookup_stored].
  apply stored_key_shape in Hst as (title & Hne & Htrim & ->).
  split; [by apply lower_nonempty|]. split; [apply lower_idem|].
  by rewrite lower_strip, Htrim.
Qed.

Lemma keys_are_lowercase_trimmed_titles_sample :
  "3sum" ≠ "" ∧ lower "3sum" = "3sum" ∧ strip "3sum" = "3sum".
Proof.
  apply (keys_are_lowercase_trimmed_titles (HFPass two_sum_kb)
           [three_sum_item]).
  rewrite final_kb_fold. simpl. unfold store.
  rewrite (hf_stored_some two_sum_kb three_sum_item
             (HF.new_entry three_sum_item (hf_title three_sum_item)));
    [|vm_compute; discriminate|reflexivity].
  rewrite lookup_insert_eq. by eexists.
Defined.

(** X5. The final knowledge base has a key exactly when some record of
    the pass stores under it. The existing knowledge base of the
    HuggingFace pass is only looked up: its entries for which the dataset
    has no record are not in the result. *)
Theorem kb_holds_exactly_the_stored_keys p rs key :
  is_Some (final_kb p rs !! key) ↔
  ∃ r entry, r ∈ rs ∧ stored p r = Some (key, entry).
Proof.
  split.
  - intros [entry (r & Hin & Hst)%final_lookup_stored]. eauto.
  - intros (r & entry & Hin & Hst).
    induction rs as [|r' rs IH] using rev_ind.
    { by apply elem_of_nil in Hin. }
    rewrite final_kb_snoc. unfold store.
    apply elem_of_app in Hin as [Hin|Hin].
    + destruct (stored p r') as [[k e]|]; [|by apply IH].
      destruct (decide (k = key)) as [->|Hne].
      * rewrite lookup_insert_eq. by eexists.
      * rewrite lookup_insert_ne by done. by apply IH.
    + apply list_elem_of_singleton in Hin as <-. rewrite Hst.
      rewrite lookup_insert_eq. by eexists.
Qed.

(** ** Counters *)

Lemma kaggle_step_count st row :
  Kaggle.count (Kaggle.step st row)
  = Kaggle.count st + (if has_title row then 1 else 0).
Proof.
  unfold Kaggle.step, Kaggle.loop_body, has_title. fold (kaggle_title row).
  destruct (decide (kaggle_title row = "")) as [Ht|Ht]; unfold_res; simpl.
  - rewrite bool_decide_eq_true_2 by done. simpl. lia.
  - rewrite bool_decide_eq_false_2 by done. done.
Qed.

Lemma kaggle_step_size st row :
  size (Kaggle.kb st) ≤ Kaggle.count st →
  size (Kaggle.kb (Kaggle.step st row)) ≤ Kaggle.count (Kaggle.step st row).
Proof.
  intros Hle. unfold Kaggle.step.
  destruct (Kaggle.loop_body row) as [[[key entry]|]|]; simpl; [|done..].
  rewrite map_size_insert. destruct (Kaggle.kb st !! key); simpl; lia.
Qed.

(** X6. The [count] the Kaggle pass reports is the number of rows with a
    usable title, duplicates of a title included: it is at least the
    number of entries of the knowledge base and at most the number of
    rows. *)
Theorem count_is_rows_with_title rows :
  Kaggle.count (Kaggle.process_data rows)
  = length (filter (λ row, has_title row = true) rows) ∧
  size (Kaggle.kb (Kaggle.process_data rows))
  ≤ Kaggle.count (Kaggle.process_data rows) ∧
  Kaggle.count (Kaggle.process_data rows) ≤ length rows.
Proof.
  assert (Kaggle.count (Kaggle.process_data rows)
          = length (filter (λ row, has_title row = true) rows)) as Hcount.
  { unfold Kaggle.process_data.
    induction rows as [|row rows IH] using rev_ind; [done|].
    rewrite fold_left_app, filter_app, length_app. simpl.
    rewrite kaggle_step_count, IH, filter_cons.
    destruct (has_title row); by case_decide. }
  split; [done|]. split.
  - unfold Kaggle.process_data. clear Hcount.
    induction rows as [|row rows IH] using rev_ind.
    + simpl. by rewrite map_size_empty.
    + rewrite fold_left_app. simpl. by apply kaggle_step_size.
  - rewrite Hcount. apply length_filter.
Qed.

Lemma hf_step_count existing_kb st item :
  HF.method_signature_count (HF.step existing_kb st item)
  = HF.method_signature_count st
    + (if counted existing_kb item then 1 else 0).
Proof.
  unfold HF.step, counted.
  destruct (decide (hf_title item = "")) as [Ht|Ht].
  { rewrite (Passes.hf_body_blank _ _ Ht).
    rewrite bool_decide_eq_true_2 by done. simpl. lia. }
  rewrite bool_decide_eq_false_2 by done. simpl.
  destruct (existing_kb !! lower (hf_title item)) as [old|] eqn:Hold.
  - destruct old as [| | | |l|base].
    1-5: unfold HF.loop_body; fold (hf_title item); fold (hf_code item);
      destruct (decide (hf_title item = "")); [done|];
      rewrite Hold; unfold_res; simpl; try lia;
      destruct (decide (hf_code item = "")); simpl; lia.
    rewrite (hf_body_on_dict_found existing_kb item base Ht)
      by (by rewrite Hold).
    simpl. unfold signatures_found.
    destruct (decide (hf_code item = "")) as [Hc|Hc].
    + rewrite Hc. by rewrite bool_decide_eq_false_2 by (by intros [? ?]).
    + destruct (HF.extract_method_signature (hf_code item)).
      * by rewrite bool_decide_eq_true_2 by by eexists.
      * by rewrite bool_decide_eq_false_2 by (by intros [? ?]).
  - rewrite (hf_body_on_dict_found existing_kb item _ Ht)
      by (by rewrite Hold).
    simpl. unfold signatures_found.
    destruct (decide (hf_code item = "")) as [Hc|Hc].
    + rewrite Hc. by rewrite bool_decide_eq_false_2 by (by intros [? ?]).
    + destruct (HF.extract_method_signature (hf_code item)).
      * by rewrite bool_decide_eq_true_2 by by eexists.
      * by rewrite bool_decide_eq_false_2 by (by intros [? ?]).
Qed.

(** X7. [method_signature_count] counts records, not problems: it is the
    number of records with a usable title, a dictionary (or nothing) under
    their key in the existing knowledge base, and a signature found in
    their solution text; it is at most the number of records. *)
Theorem signature_count_counts_records existing_kb items :
  HF.method_signature_count (HF.process_hf_dataset existing_kb items)
  = length (filter (λ item, counted existing_kb item = true) items) ∧
  HF.method_signature_count (HF.process_hf_dataset existing_kb items)
  ≤ length items.
Proof.
  assert (HF.method_signature_count
            (HF.process_hf_dataset existing_kb items)
          = length (filter (λ item, counted existing_kb item = true) items))
    as Hcount.
  { unfold HF.process_hf_dataset.
    induction items as [|item items IH] using rev_ind; [done|].
    rewrite fold_left_app, filter_app, length_app. simpl.
    rewrite hf_step_count, IH, filter_cons.
    destruct (counted existing_kb item); by case_decide. }
  split; [done|]. rewrite Hcount. apply length_filter.
Qed.

End KeyFacts.

Module EdgeFacts.
Import Py Spec Loops Facts.

(** ** Blank texts *)

Lemma lstrip_blank p s : lstrip_by p s = "" ↔ all_of p s = true.
Proof.
  induction s as [|c s IH]; [done|]. simpl.
  destruct (p c); [done|]. split; done.
Qed.

Lemma strip_blank s : strip s = "" ↔ all_of isspace s = true.
Proof.
  rewrite <- lstrip_blank. unfold strip. split; [|by intros ->].
  destruct (Normalizer.lstrip_by_head isspace s)
    as [->|(c & r & -> & Hc)]; [done|].
  by destruct (Normalizer.rstrip_by_head isspace c r Hc) as [r' ->].
Qed.

Lemma strip_keeps_head c r :
  isspace c = false → strip (String c r) ≠ "".
Proof.
  intros Hc. unfold strip. simpl. rewrite Hc.
  by destruct (Normalizer.rstrip_by_head isspace c r Hc) as [r' ->].
Qed.

Lemma str_int_not_blank z : strip (str (CInt z)) ≠ "".
Proof.
  simpl. destruct (Z.to_int z) as [d|d]; simpl.
  - destruct d; by apply strip_keeps_head.
  - by apply strip_keeps_head.
Qed.

Lemma str_not_blank v :
  (∀ s, v ≠ CStr s) → strip (str v) ≠ "".
Proof.
  destruct v as [|[]|z|s|]; intros Hv; try by vm_compute.
  - apply str_int_not_blank.
  - by destruct (Hv s).
Qed.

(** X8. The HuggingFace loop takes its [continue] exactly when
    [problem_title] is absent or is a string of whitespace only (the empty
    string included). A title that is [None], a boolean or a number is
    never skipped: its string conversion is the title. *)
Theorem title_skip_condition existing_kb item :
  HF.loop_body existing_kb item = Ok None ↔
  match item !! "problem_title" with
  | None => True
  | Some (CStr s) => all_of isspace s = true
  | Some _ => False
  end.
Proof.
  assert (HF.loop_body existing_kb item = Ok None ↔ hf_title item = "")
    as ->.
  { split; [|apply Passes.hf_body_blank].
    destruct (decide (hf_title item = "")) as [|Ht]; [done|].
    destruct (stored (HFPass existing_kb) item) as [[k e]|] eqn:Hst;
      simpl in Hst; intros Hbody; rewrite Hbody in Hst; [done|].
    revert Hbody. unfold HF.loop_body.
    fold (hf_title item). fold (hf_code item).
    destruct (decide (hf_title item = "")); [done|].
    destruct (existing_kb !! lower (hf_title item)) as [[| | | | |]|];
      unfold_res; simpl; try done;
      destruct (decide (hf_code item = "")); simpl; try done;
      by destruct (HF.extract_method_signature (hf_code item)). }
  unfold hf_title, get.
  destruct (item !! "problem_title") as [v|]; [|done].
  destruct v as [| |z|s|]; try apply strip_blank.
  all: split; [|done]; intros H; by apply str_not_blank in H.
Qed.

(** X9. In the Kaggle pass a [title] that is a non-empty string of
    whitespace only is truthy, so the [or] never reads [question title]:
    the row is skipped whatever the alternate field holds. *)
Theorem whitespace_title_hides_alternate row s :
  row !! "title" = Some (CStr s) → s ≠ "" → all_of isspace s = true →
  Kaggle.loop_body row = Ok None ∧ ∀ st, Kaggle.step st row = st.
Proof.
  intros Hrow Hne Hblank.
  assert (kaggle_title row = "") as Ht.
  { unfold kaggle_title, Kaggle.either, or_else, get. rewrite Hrow. simpl.
    rewrite bool_decide_eq_false_2 by done. simpl. by apply strip_blank. }
  assert (Kaggle.loop_body row = Ok None) as Hbody.
  { unfold Kaggle.loop_body. fold (kaggle_title row).
    by destruct (decide (kaggle_title row = "")). }
  split; [done|]. intros st. unfold Kaggle.step. by rewrite Hbody.
Qed.

Lemma whitespace_title_hides_alternate_sample :
  Kaggle.loop_body hidden_title_row = Ok None ∧
  ∀ st, Kaggle.step st hidden_title_row = st.
Proof.
  apply (whitespace_title_hides_alternate hidden_title_row "  ");
    [reflexivity|discriminate|reflexivity].
Defined.

(** X10. When the existing knowledge base holds something other than a
    dictionary under the key of a record, the record is dropped by the
    [except]: [AttributeError] from [copy] for a scalar, [TypeError] from
    the item assignment for a list. Only a list met by a record without
    solution text gets through, and the list itself is stored. *)
Theorem non_dictionary_entry_drops_record existing_kb item old :
  hf_title item ≠ "" →
  existing_kb !! lower (hf_title item) = Some old →
  (∀ d, old ≠ JObj d) →
  match old with
  | JArr l =>
      if decide (hf_code item = "")
      then HF.loop_body existing_kb item
           = Ok (Some (lower (hf_title item), JArr l, 0))
      else HF.loop_body existing_kb item = Raise TypeError ∧
           ∀ st, HF.step existing_kb st item = st
  | _ =>
      HF.loop_body existing_kb item = Raise AttributeError ∧
      ∀ st, HF.step existing_kb st item = st
  end.
Proof.
  intros Ht Hold Hnd.
  assert (∀ e, HF.loop_body existing_kb item = Raise e →
               ∀ st, HF.step existing_kb st item = st) as Hskip.
  { intros e Hbody st. unfold HF.step. by rewrite Hbody. }
  assert (HF.loop_body existing_kb item
          = match old with
            | JArr l =>
                if decide (hf_code item = "")
                then Ok (Some (lower (hf_title item), JArr l, 0))
                else Raise TypeError
            | JObj d => Ok None
            | _ => Raise AttributeError
            end) as Hbody.
  { unfold HF.loop_body. fold (hf_title item). fold (hf_code item).
    destruct (decide (hf_title item = "")); [done|]. rewrite Hold.
    destruct old as [| | | |l|d]; unfold_res; simpl; try done.
    - by destruct (decide (hf_code item = "")).
    - by destruct (Hnd d). }
  destruct old as [| | | |l|d]; try (split; [done|by eapply Hskip]).
  - destruct (decide (hf_code item = "")); [done|].
    split; [done|by eapply Hskip].
  - by destruct (Hnd d).
Qed.

Lemma non_dictionary_entry_drops_record_sample :
  HF.loop_body list_kb two_sum_item = Raise TypeError ∧
  ∀ st, HF.step list_kb st two_sum_item = st.
Proof.
  apply (non_dictionary_entry_drops_record list_kb two_sum_item (JArr [])).
  - vm_compute. discriminate.
  - reflexivity.
  - discriminate.
Defined.

End EdgeFacts.

Module PipelineFacts.
Import Py Spec Loops Facts KeyFacts.

(** ** The order of the records *)

Lemma store_commute p kb r1 r2 :
  (∀ k e1 e2, stored p r1 = Some (k, e1) → stored p r2 ≠ Some (k, e2)) →
  store p (store p kb r1) r2 = store p (store p kb r2) r1.
Proof.
  intros Hne. unfold store.
  destruct (stored p r1) as [[k1 e1]|], (stored p r2) as [[k2 e2]|];
    try done.
  apply insert_insert_ne. intros ->. by apply (Hne k1 e1 e2).
Qed.

Lemma fold_store_permutation p rs rs' kb :
  rs ≡ₚ rs' → NoDup (stored_keys p rs) →
  fold_left (store p) rs kb = fold_left (store p) rs' kb.
Proof.
  intros Hperm. revert kb.
  induction Hperm as [|r rs rs' Hperm IH|r1 r2 rs|rs rs' rs'' H1 IH1 H2 IH2];
    intros kb Hnd.
  - done.
  - simpl. apply IH. unfold stored_keys in *. simpl in Hnd.
    destruct (stored p r) as [[k e]|]; simpl in Hnd; [|done].
    by apply NoDup_cons in Hnd as [_ Hnd].
  - simpl. f_equal. symmetry. apply store_commute.
    intros k e1 e2 Hr1 Hr2. unfold stored_keys in Hnd. simpl in Hnd.
    rewrite Hr1, Hr2 in Hnd. simpl in Hnd.
    apply NoDup_cons in Hnd as [Hin _]. apply Hin. left.
  - rewrite IH1 by done. apply IH2. unfold stored_keys in *.
    by rewrite <- H1.
Qed.

(** X11. When the records of a pass store under pairwise distinct keys,
    their order does not matter: any permutation of the sequence gives the
    same knowledge base. *)
Theorem order_irrelevant_for_distinct_keys p rs rs' :
  rs ≡ₚ rs' → NoDup (stored_keys p rs) →
  final_kb p rs = final_kb p rs'.
Proof.
  intros Hperm Hnd. rewrite !final_kb_fold.
  by apply fold_store_permutation.
Qed.

(** ** The entries of the Kaggle pass *)

Lemma kaggle_stored_schema row key entry :
  stored KagglePass row = Some (key, entry) →
  ∃ d tags,
    entry = JObj d ∧ dom d = kaggle_fields ∧
    d !! "tags" = Some (JArr (JStr <$> tags)) ∧
    ∀ f, f ∈ kaggle_fields → f ≠ "tags" → ∃ s, d !! f = Some (JStr s).
Proof.
  simpl. unfold Kaggle.loop_body. fold (kaggle_title row).
  destruct (decide (kaggle_title row = "")) as [|Hne]; [done|].
  unfold_res. intros [= <- <-]. eexists _, _. split; [done|].
  split; [|split].
  - rewrite !dom_insert_L, dom_empty_L. unfold kaggle_fields. set_solver.
  - by rewrite lookup_insert_eq.
  - intros f Hf Hne'. unfold kaggle_fields in Hf.
    rewrite !elem_of_union, !elem_of_singleton in Hf.
    destruct Hf as [[[[[->| ->]| ->]| ->]| ->]| ->]; try done;
      rewrite ?lookup_insert_ne by done; rewrite lookup_insert_eq;
      by eexists.
Qed.

Lemma order_irrelevant_sample :
  final_kb (HFPass two_sum_kb) [two_sum_item; three_sum_item]
  = final_kb (HFPass two_sum_kb) [three_sum_item; two_sum_item].
Proof.
  apply order_irrelevant_for_distinct_keys; [apply perm_swap|].
  assert (stored_keys (HFPass two_sum_kb) [two_sum_item; three_sum_item]
          = ["two sum"; "3sum"]) as -> by (vm_compute; reflexivity).
  apply NoDup_cons. split.
  - intros Hin. apply list_elem_of_singleton in Hin. discriminate.
  - apply NoDup_singleton.
Defined.

Lemma kaggle_final_schema rows key entry :
  final_kb KagglePass rows !! key = Some entry →
  ∃ d tags,
    entry = JObj d ∧ dom d = kaggle_fields ∧
    d !! "tags" = Some (JArr (JStr <$> tags)) ∧
    ∀ f, f ∈ kaggle_fields → f ≠ "tags" → ∃ s, d !! f = Some (JStr s).
Proof.
  intros (row & _ & Hst)%final_lookup_stored.
  by apply kaggle_stored_schema in Hst.
Qed.

(** X12. Every entry of the knowledge base of the Kaggle pass is a
    dictionary with exactly the six fields [id], [title], [difficulty],
    [tags], [description] and [solution]; [tags] is a list of strings and
    the other five are strings. *)
Theorem kaggle_entries_have_six_fields rows key entry :
  final_kb KagglePass rows !! key = Some entry →
  ∃ d tags,
    entry = JObj d ∧ dom d = kaggle_fields ∧
    d !! "tags" = Some (JArr (JStr <$> tags)) ∧
    ∀ f, f ∈ kaggle_fields → f ≠ "tags" → ∃ s, d !! f = Some (JStr s).
Proof. apply kaggle_final_schema. Qed.

(** ** The Kaggle pass, then the HuggingFace pass *)

Lemma final_kb_invariant p rs :
  kb_invariant (merge_base p) → kb_invariant (final_kb p rs).
Proof.
  intros Hbase. induction rs as [|r rs IH] using rev_ind.
  - rewrite final_kb_nil. apply map_Forall_empty.
  - rewrite final_kb_snoc. by apply Passes.store_invariant.
Qed.

Lemma kaggle_entries_have_six_fields_sample :
  ∃ entry d tags,
    final_kb KagglePass [two_sum_row "a"] !! "two sum" = Some entry ∧
    entry = JObj d ∧ dom d = kaggle_fields ∧
    d !! "tags" = Some (JArr (JStr <$> tags)) ∧
    ∀ f, f ∈ kaggle_fields → f ≠ "tags" → ∃ s, d !! f = Some (JStr s).
Proof.
  destruct (kaggle_stored_some (two_sum_row "a")) as [d0 Hst];
    [vm_compute; discriminate|].
  assert (final_kb KagglePass [two_sum_row "a"] !! "two sum"
          = Some (JObj d0)) as Hkb.
  { rewrite final_kb_fold. simpl fold_left. unfold store. rewrite Hst.
    apply lookup_insert_eq. }
  destruct (kaggle_entries_have_six_fields _ _ _ Hkb)
    as (d & tags & Hd & Hrest).
  by exists (JObj d0), d, tags.
Defined.

(** X13. Run one after the other, the Kaggle pass feeding the HuggingFace
    pass as its existing knowledge base, the two passes need no
    precondition: no iteration of the second pass raises, the result keeps
    the key invariant, every entry of the result is a dictionary with the
    fields [id], [title], [difficulty], [tags] and [description], and an
    entry whose key the first pass produced has all the fields of the
    first pass unchanged, save the three the second pass computes. *)
Theorem kaggle_then_hf rows items :
  let kb1 := final_kb KagglePass rows in
  let kb2 := final_kb (HFPass kb1) items in
  kb_invariant kb2 ∧
  (∀ item, ∃ outcome, HF.loop_body kb1 item = Ok outcome) ∧
  (∀ key entry2,
     kb2 !! key = Some entry2 →
     ∃ d2,
       entry2 = JObj d2 ∧
       (∀ f, f ∈ ["id"; "title"; "difficulty"; "tags"; "description"] →
             is_Some (d2 !! f)) ∧
       (∀ entry1,
          kb1 !! key = Some entry1 →
          ∃ d1, entry1 = JObj d1 ∧
                ∀ f, f ∉ fresh_fields → d2 !! f = d1 !! f)).
Proof.
  intros kb1 kb2.
  assert (kb_invariant kb1) as Hinv1.
  { apply (final_kb_invariant KagglePass). apply map_Forall_empty. }
  assert (∀ item,
            hf_title item ≠ "" →
            ∃ base,
              match kb1 !! lower (hf_title item) with
              | Some old => old = JObj base
              | None => base = HF.new_entry item (hf_title item)
              end) as Hbase.
  { intros item Ht.
    destruct (kb1 !! lower (hf_title item)) as [old|] eqn:Hold;
      [|by eexists].
    apply kaggle_final_schema in Hold as (d & _ & -> & _).
    by exists d. }
  split; [by apply (final_kb_invariant (HFPass kb1))|]. split.
  - intros item. destruct (decide (hf_title item = "")) as [Ht|Ht].
    { rewrite (Passes.hf_body_blank _ _ Ht). by eexists. }
    destruct (Hbase item Ht) as [base Hb].
    rewrite (hf_body_on_dict_found kb1 item base Ht Hb). by eexists.
  - intros key entry2 (item & _ & Hst)%final_lookup_stored.
    pose proof (hf_stored_key _ _ _ _ Hst) as [Ht ->].
    destruct (Hbase item Ht) as [base Hb].
    rewrite (hf_stored_some kb1 item base Ht Hb) in Hst.
    injection Hst as <-. eexists. split; [done|]. split.
    + intros f Hf. rewrite overlay_frame;
        [|intros ->; set_solver..].
      destruct (kb1 !! lower (hf_title item)) as [old|] eqn:Hold.
      * subst old.
        apply kaggle_final_schema in Hold
          as (d & tags & [= <-] & Hdom & _).
        apply elem_of_dom. rewrite Hdom. unfold kaggle_fields. set_solver.
      * subst base. unfold HF.new_entry. apply elem_of_dom.
        rewrite !dom_insert_L. set_solver.
    + intros entry1 Hold. rewrite Hold in Hb. subst entry1.
      exists base. split; [done|]. intros f Hf.
      apply overlay_frame; intros ->; apply Hf; unfold fresh_fields;
        set_solver.
Qed.

End PipelineFacts.

Module TextFacts.
Import Py Spec Loops Facts.

(** ** What the extractor returns *)

Lemma rstrip_by_length p s :
  String.length (rstrip_by p s) ≤ String.length s.
Proof.
  induction s as [|c s IH]; [done|]. simpl.
  destruct (rstrip_by p s); [destruct (p c)|]; simpl in *; lia.
Qed.

Lemma declaration_no_trailing_colon name sig s :
  declaration name sig → sig ≠ s +:+ ":".
Proof.
  intros Hd ->. pose proof (Extractor.declaration_rstrip _ _ Hd) as Hr.
  rewrite !Extractor.rstrip_by_snoc in Hr by done.
  pose proof (rstrip_by_length (HF.is_char ":") s) as Hlen.
  rewrite Hr, Extractor.app_length in Hlen. simpl in Hlen. lia.
Qed.

(** X14. A result of the extractor is well formed: the method name is an
    identifier and occurs in the signature; the signature starts with
    "def", does not end with a colon, and occurs in the text followed by a
    colon. *)
Theorem signature_is_well_formed code info :
  HF.extract_method_signature code = Some info →
  is_ident (HF.method_name info) = true ∧
  occurs_in (HF.method_name info) (HF.full_signature info) ∧
  (∃ rest, HF.full_signature info = "def" +:+ rest) ∧
  (∀ s, HF.full_signature info ≠ s +:+ ":") ∧
  occurs_in (HF.full_signature info +:+ ":") code.
Proof.
  intros (pre & rest & -> & [Hd [post ->]] & _)%Extractor.extract_sound.
  split; [|split; [|split; [|split]]].
  - by destruct Hd.
  - destruct Hd as [ws1 ws2 params ret]. exists ("def" +:+ ws1).
    eexists. by rewrite !Extractor.app_assoc.
  - destruct Hd. by eexists.
  - intros s. by eapply declaration_no_trailing_colon.
  - exists pre, post. by rewrite !Extractor.app_assoc.
Qed.

Lemma signature_is_well_formed_sample :
  is_ident "twoSum" = true ∧
  occurs_in "twoSum" "def twoSum(self, nums, target)" ∧
  (∃ rest, "def twoSum(self, nums, target)" = "def" +:+ rest) ∧
  (∀ s, "def twoSum(self, nums, target)" ≠ s +:+ ":") ∧
  occurs_in ("def twoSum(self, nums, target)" +:+ ":")
    "def twoSum(self, nums, target):".
Proof.
  apply (signature_is_well_formed "def twoSum(self, nums, target):"
           (HF.SigInfo "twoSum" "def twoSum(self, nums, target)")).
  vm_compute. reflexivity.
Defined.

(** X15. A text without an opening parenthesis, without a closing
    parenthesis or without a colon has no signature. *)
Theorem signature_needs_parentheses_and_colon code :
  all_of not_lparen code = true ∨
  all_of HF.not_rparen code = true ∨
  all_of HF.not_colon code = true →
  HF.extract_method_signature code = None.
Proof.
  intros Hmiss.
  destruct (HF.extract_method_signature code) as [info|] eqn:Hex; [|done].
  exfalso.
  apply Extractor.extract_sound in Hex
    as (pre & rest & -> & [Hd [post ->]] & _).
  destruct Hd as [ws1 ws2 params ret _ _ _ _ _ _].
  destruct Hmiss as [H|[H|H]]; rewrite !Extractor.all_of_app in H.
  - apply andb_true_iff in H as [_ H]. apply andb_true_iff in H as [H _].
    do 4 (apply andb_true_iff in H as [_ H]).
    by apply andb_true_iff in H as [H _].
  - apply andb_true_iff in H as [_ H]. apply andb_true_iff in H as [H _].
    do 6 (apply andb_true_iff in H as [_ H]).
    by apply andb_true_iff in H as [H _].
  - apply andb_true_iff in H as [_ H]. apply andb_true_iff in H as [_ H].
    by apply andb_true_iff in H as [H _].
Qed.

Lemma signature_needs_colon_sample :
  HF.extract_method_signature "def solve(self, x)" = None.
Proof.
  apply signature_needs_parentheses_and_colon. right. right. reflexivity.
Defined.

(** ** Empty tag lists *)

Lemma split_all_blank s :
  Forall (λ piece, all_of isspace piece = true) (split "," s) ↔
  all_of comma_or_space s = true.
Proof.
  induction s as [|c s IH]; simpl.
  - split; [done|]. by repeat constructor.
  - unfold comma_or_space at 1.
    destruct (decide (c = ","%char)) as [->|Hc].
    + simpl. rewrite Forall_cons, IH. naive_solver.
    + rewrite bool_decide_eq_false_2 by done. simpl.
      rewrite andb_true_iff, <- IH.
      destruct (split "," s) as [|piece pieces].
      * rewrite !Forall_cons. simpl. rewrite andb_true_r. naive_solver.
      * rewrite !Forall_cons. simpl. rewrite andb_true_iff. naive_solver.
Qed.

Lemma clean_tags_nil pieces :
  Kaggle.clean_tags pieces = [] ↔
  Forall (λ piece, all_of isspace piece = true) pieces.
Proof.
  unfold Kaggle.clean_tags. induction pieces as [|piece pieces IH].
  - split; [by constructor|done].
  - rewrite filter_cons, Forall_cons, <- IH, <- EdgeFacts.strip_blank.
    destruct (decide (strip piece ≠ "")) as [Hne|He]; simpl.
    + split; [done|]. by intros [? _].
    + apply dec_stable in He. tauto.
Qed.

(** X16. The entry of a row has an empty tag list exactly when the tag
    field it reads consists of commas and whitespace only (the empty field
    included). *)
Theorem no_tags_iff_only_commas_and_spaces row key d :
  stored KagglePass row = Some (key, JObj d) →
  d !! "tags" = Some (JArr []) ↔
  all_of comma_or_space (str (Kaggle.either row "tags" "topic tags")) = true.
Proof.
  intros (_ & _ & Htags & _)%Normalizer.kaggle_stored_inv.
  rewrite Htags, <- split_all_blank, <- clean_tags_nil. split.
  - intros [= H]. by apply fmap_nil_inv in H.
  - by intros ->.
Qed.

Lemma no_tags_sample :
  ∃ d, stored KagglePass no_tags_row = Some ("two sum", JObj d) ∧
       d !! "tags" = Some (JArr []).
Proof.
  destruct (kaggle_stored_some no_tags_row) as [d Hst];
    [vm_compute; discriminate|].
  exists d. split; [exact Hst|].
  by apply (no_tags_iff_only_commas_and_spaces no_tags_row _ d Hst).
Defined.

End TextFacts.
